(** * thread_safe_storage/storage.py: a chained hash table keyed by SHA-256

    A shallow embedding of [Node] and [DataStore] and the properties of
    their operations.

    Conventions of the embedding
    - a Python [str] key is the [string] of its UTF-8 bytes ([key.encode()]);
    - a chain ([Node] objects linked through [next], ended by [None]) is the
      list of its nodes from the head on; [None] is the empty list;
    - the dict [_cache] is an association list in insertion order, as
      Python dicts iterate; the code never removes an entry;
    - an operation is a function from the store to an outcome and the store
      it leaves behind: a Python exception leaves the mutations made before
      it was raised;
    - of [print(cur_node.key)] in [insert], the read of [.key] is modelled
      (it raises on [None]), the line written to standard output is not. *)

From Stdlib Require Import ZArith List String Ascii Bool Lia.
Import ListNotations.
Local Open Scope string_scope.
Local Open Scope list_scope.
Local Open Scope Z_scope.

(** ** hashlib.sha256(...).hexdigest() (FIPS 180-4) *)

Module Sha256.

Definition w32 (x : Z) : Z := x mod 2 ^ 32.

Definition rotr (n x : Z) : Z :=
  Z.lor (Z.shiftr x n) (w32 (Z.shiftl x (32 - n))).

Definition Ch (x y z : Z) : Z :=
  Z.lxor (Z.land x y) (Z.land (Z.lxor x (2 ^ 32 - 1)) z).

Definition Maj (x y z : Z) : Z :=
  Z.lxor (Z.lxor (Z.land x y) (Z.land x z)) (Z.land y z).

Definition Sigma0 (x : Z) : Z :=
  Z.lxor (Z.lxor (rotr 2 x) (rotr 13 x)) (rotr 22 x).

Definition Sigma1 (x : Z) : Z :=
  Z.lxor (Z.lxor (rotr 6 x) (rotr 11 x)) (rotr 25 x).

Definition sigma0 (x : Z) : Z :=
  Z.lxor (Z.lxor (rotr 7 x) (rotr 18 x)) (Z.shiftr x 3).

Definition sigma1 (x : Z) : Z :=
  Z.lxor (Z.lxor (rotr 17 x) (rotr 19 x)) (Z.shiftr x 10).

Definition K : list Z :=
  [ 1116352408; 1899447441; 3049323471; 3921009573; 961987163; 1508970993; 2453635748; 2870763221;
    3624381080; 310598401; 607225278; 1426881987; 1925078388; 2162078206; 2614888103; 3248222580;
    3835390401; 4022224774; 264347078; 604807628; 770255983; 1249150122; 1555081692; 1996064986;
    2554220882; 2821834349; 2952996808; 3210313671; 3336571891; 3584528711; 113926993; 338241895;
    666307205; 773529912; 1294757372; 1396182291; 1695183700; 1986661051; 2177026350; 2456956037;
    2730485921; 2820302411; 3259730800; 3345764771; 3516065817; 3600352804; 4094571909; 275423344;
    430227734; 506948616; 659060556; 883997877; 958139571; 1322822218; 1537002063; 1747873779;
    1955562222; 2024104815; 2227730452; 2361852424; 2428436474; 2756734187; 3204031479; 3329325298 ].

Definition H0 : list Z :=
  [ 1779033703; 3144134277; 1013904242; 2773480762;
    1359893119; 2600822924; 528734635; 1541459225 ].

Definition bytes_of_string (s : string) : list Z :=
  List.map (fun c => Z.of_N (N_of_ascii c)) (list_ascii_of_string s).

(** Big-endian bytes of [x], [n] of them. *)
Fixpoint be_bytes (n : nat) (x : Z) : list Z :=
  match n with
  | O => []
  | S n' => Z.shiftr x (8 * Z.of_nat n') mod 256 :: be_bytes n' x
  end.

(** The message, the byte 0x80, zero bytes up to 56 modulo 64, and the
    length in bits on 8 bytes. *)
Definition pad (msg : list Z) : list Z :=
  let len := Z.of_nat (List.length msg) in
  let zeros := Z.to_nat ((55 - len) mod 64) in
  msg ++ [128] ++ List.repeat 0 zeros ++ be_bytes 8 (8 * len).

Fixpoint words (n : nat) (bs : list Z) : list Z :=
  match n with
  | O => []
  | S n' =>
      match bs with
      | b0 :: b1 :: b2 :: b3 :: rest =>
          (b0 * 16777216 + b1 * 65536 + b2 * 256 + b3) :: words n' rest
      | _ => []
      end
  end.

(** The message schedule, most recent word first: [rev_w] holds
    W(t-1), W(t-2), ... *)
Fixpoint schedule (n : nat) (rev_w : list Z) : list Z :=
  match n with
  | O => rev_w
  | S n' =>
      let w := w32 (sigma1 (List.nth 1 rev_w 0) + List.nth 6 rev_w 0
                    + sigma0 (List.nth 14 rev_w 0) + List.nth 15 rev_w 0) in
      schedule n' (w :: rev_w)
  end.

Definition round (st : list Z) (kw : Z * Z) : list Z :=
  match st with
  | [a; b; c; d; e; f; g; h] =>
      let t1 := h + Sigma1 e + Ch e f g + fst kw + snd kw in
      let t2 := Sigma0 a + Maj a b c in
      [w32 (t1 + t2); a; b; c; w32 (d + t1); e; f; g]
  | _ => st
  end.

Definition compress (h : list Z) (block : list Z) : list Z :=
  let w := List.rev (schedule 48 (List.rev (words 16 block))) in
  let st := List.fold_left round (List.combine K w) h in
  List.map (fun p => w32 (fst p + snd p)) (List.combine h st).

Fixpoint blocks (n : nat) (h : list Z) (bs : list Z) : list Z :=
  match n with
  | O => h
  | S n' =>
      match bs with
      | [] => h
      | _ => blocks n' (compress h (List.firstn 64 bs)) (List.skipn 64 bs)
      end
  end.

Definition digest (msg : list Z) : list Z :=
  let p := pad msg in
  List.concat (List.map (be_bytes 4) (blocks (List.length p) H0 p)).

Definition hex_digit (x : Z) : ascii :=
  if x <? 10 then ascii_of_N (Z.to_N (48 + x)) else ascii_of_N (Z.to_N (87 + x)).

Fixpoint hex (bs : list Z) : string :=
  match bs with
  | [] => EmptyString
  | b :: rest => String (hex_digit (b / 16)) (String (hex_digit (b mod 16)) (hex rest))
  end.

Definition hexdigest (s : string) : string := hex (digest (bytes_of_string s)).

End Sha256.

(** ** Node and DataStore *)

(** [hash_func]: the hex digest of the key's bytes, 64 characters. *)
Definition hash_func (key : string) : string := Sha256.hexdigest key.

(** The three [RuntimeError] messages of the module. *)
Inductive message : Type :=
| AlreadyExists (key : string)   (* Node with key ... already exists. Run update to change value *)
| NoSuchNode (key : string)      (* No node with key ... exists in cache *)
| BadCapacity.                   (* Capacity must be greater than 0 *)

(** The exceptions the operations raise: the module's own [RuntimeError]s,
    the [KeyError] of a dict subscript on a missing key, and the
    [AttributeError] of reading [.key] on [None]. *)
Inductive exn : Type :=
| RuntimeError (m : message)
| KeyError (hash_key : string)
| AttributeError.

(** How a call ends: it returns, it raises, it blocks for ever on the
    lock it already holds, or the unfolding depth of the model is used up. *)
Inductive outcome (A : Type) : Type :=
| Ok (a : A)
| Raise (e : exn)
| Deadlock
| OutOfFuel.

Arguments Ok {A} a.
Arguments Raise {A} e.
Arguments Deadlock {A}.
Arguments OutOfFuel {A}.

(** math.ceil(capacity * 1.5); the float product is exact for the
    capacities a table can hold (below 2^52). *)
Definition ceil_1_5 (capacity : Z) : Z := (3 * capacity + 1) / 2.

Section Store.

Variable V : Type.

Record Node : Type := mkNode { key : string; value : V }.

(** A chain: the nodes from the head on; [[]] is [None]. *)
Local Abbreviation chain := (list Node).

(** [_cache]: digest and head of the chain, in insertion order. *)
Local Abbreviation dict := (list (string * list Node)).

(** [h in d] *)
Fixpoint dict_contains (d : dict) (h : string) : bool :=
  match d with
  | [] => false
  | (h', _) :: d' => if String.eqb h' h then true else dict_contains d' h
  end.

(** [d[h]]; [None] stands for the [KeyError]. *)
Fixpoint dict_getitem (d : dict) (h : string) : option chain :=
  match d with
  | [] => None
  | (h', c) :: d' => if String.eqb h' h then Some c else dict_getitem d' h
  end.

(** [d[h] = c]: an existing entry keeps its place, a new one goes last. *)
Fixpoint dict_setitem (d : dict) (h : string) (c : chain) : dict :=
  match d with
  | [] => [(h, c)]
  | (h', c') :: d' =>
      if String.eqb h' h then (h', c) :: d' else (h', c') :: dict_setitem d' h c
  end.

Record DataStore : Type := mkDataStore {
  cache : dict;
  capacity : Z;
  lock_held : bool       (* the state of [_lock] *)
}.

(** DataStore(capacity): no check is made on [capacity]. *)
Definition init (capacity : Z) : DataStore :=
  {| cache := []; capacity := capacity; lock_held := false |}.

(** [capacity=10]: the capacity of DataStore(). *)
Definition default_capacity : Z := 10.

Definition set_cache (d : dict) (s : DataStore) : DataStore :=
  {| cache := d; capacity := capacity s; lock_held := lock_held s |}.

Definition set_lock (b : bool) (s : DataStore) : DataStore :=
  {| cache := cache s; capacity := capacity s; lock_held := b |}.

(** len(self._cache): the entries of the dict, emptied buckets included. *)
Definition size (s : DataStore) : Z := Z.of_nat (List.length (cache s)).

(** [contains] looks its argument up in the dict as it is. *)
Definition contains (key : string) (s : DataStore) : bool :=
  dict_contains (cache s) key.

(** *** Calls: store in, outcome and store out *)

Definition M (A : Type) : Type := DataStore -> outcome A * DataStore.

Definition ret {A : Type} (a : A) : M A := fun s => (Ok a, s).

Definition raise {A : Type} (e : exn) : M A := fun s => (Raise e, s).

Definition bind {A B : Type} (m : M A) (f : A -> M B) : M B :=
  fun s =>
    match m s with
    | (Ok a, s') => f a s'
    | (Raise e, s') => (Raise e, s')
    | (Deadlock, s') => (Deadlock, s')
    | (OutOfFuel, s') => (OutOfFuel, s')
    end.

Definition get : M DataStore := fun s => (Ok s, s).

Definition modify (f : DataStore -> DataStore) : M unit := fun s => (Ok tt, f s).

Notation "x <- m ;; f" := (bind m (fun x => f))
  (at level 61, m at next level, right associativity).
Notation "m ;; f" := (bind m (fun _ => f))
  (at level 61, right associativity).

(** [with self._lock if self._is_multithreading else nullcontext():]
    [threading.Lock] is not reentrant: acquiring it while it is held never
    returns. The lock is released when the body returns or raises. *)
Definition with_lock {A : Type} (is_multithreading : bool) (body : M A) : M A :=
  if is_multithreading then
    fun s =>
      if lock_held s then (Deadlock, s)
      else
        match body (set_lock true s) with
        | (Ok a, s') => (Ok a, set_lock false s')
        | (Raise e, s') => (Raise e, set_lock false s')
        | (Deadlock, s') => (Deadlock, s')
        | (OutOfFuel, s') => (OutOfFuel, s')
        end
  else body.

(** The loops of [resize], over an [insert] given as [ins]:
    [while node: self.insert(node.key, node.value); node = node.next] *)
Fixpoint while_node (ins : string -> V -> M Node) (node : chain) : M unit :=
  match node with
  | [] => ret tt
  | n :: next => ins (key n) (value n) ;; while_node ins next
  end.

(** [for node in nodes: ...] *)
Fixpoint for_nodes (ins : string -> V -> M Node) (nodes : list chain) : M unit :=
  match nodes with
  | [] => ret tt
  | node :: rest => while_node ins node ;; for_nodes ins rest
  end.

(** [resize]: [nodes] is a view of the old dict, which is left as it was
    when [_cache] is rebound to a new one. *)
Definition resize_with (ins : string -> V -> M Node) (new_capacity : Z) : M unit :=
  fun s =>
    if new_capacity <=? 0 then (Raise (RuntimeError BadCapacity), s)
    else
      let nodes := List.map snd (cache s) in
      for_nodes ins nodes
        {| cache := []; capacity := new_capacity; lock_held := lock_held s |}.

(** [while cur_node: if cur_node.key == key: raise ...] *)
Fixpoint has_key (k : string) (cur_node : chain) : bool :=
  match cur_node with
  | [] => false
  | n :: next => if String.eqb (key n) k then true else has_key k next
  end.

(** The body of [insert] under the lock; [resize] stands for the call
    [self.resize]. *)
Definition insert_body (resize : Z -> M unit) (k : string) (v : V) : M Node :=
  let hash_key := hash_func k in
  let node := mkNode k v in
  s <- get ;;
  (if size s =? capacity s then resize (ceil_1_5 (capacity s)) else ret tt) ;;
  s <- get ;;
  if contains hash_key s then
    match dict_getitem (cache s) hash_key with
    | None => raise (KeyError hash_key)
    | Some [] => raise AttributeError           (* print(cur_node.key) *)
    | Some cur_node =>
        if has_key k cur_node then raise (RuntimeError (AlreadyExists k))
        else
          modify (set_cache (dict_setitem (cache s) hash_key (node :: cur_node))) ;;
          ret node
    end
  else
    modify (set_cache (dict_setitem (cache s) hash_key [node])) ;;
    ret node.

(** [insert], unfolded [fuel] calls deep: [insert] calls [resize], which
    calls [insert] for every node. *)
Fixpoint insert_ (is_multithreading : bool) (fuel : nat) (k : string) (v : V)
  : M Node :=
  match fuel with
  | O => fun s => (OutOfFuel, s)
  | S fuel' =>
      with_lock is_multithreading
        (insert_body (resize_with (insert_ is_multithreading fuel')) k v)
  end.

(** The nesting of [insert] and [resize] is never deeper than this
    (lemma [insert_fuel_enough]). *)
Definition depth : nat := 3.

Definition insert (is_multithreading : bool) (k : string) (v : V) : M Node :=
  insert_ is_multithreading depth k v.

Definition resize (is_multithreading : bool) (new_capacity : Z) : M unit :=
  resize_with (insert_ is_multithreading depth) new_capacity.

(** The walk of [update]: the first node with the key gets the value. *)
Fixpoint set_value (k : string) (v : V) (cur_node : chain) : option (Node * chain) :=
  match cur_node with
  | [] => None
  | n :: next =>
      if String.eqb (key n) k then Some (mkNode (key n) v, mkNode (key n) v :: next)
      else
        match set_value k v next with
        | Some (r, next') => Some (r, n :: next')
        | None => None
        end
  end.

Definition update (is_multithreading : bool) (k : string) (v : V) : M Node :=
  with_lock is_multithreading (fun s =>
    let hash_key := hash_func k in
    match dict_getitem (cache s) hash_key with
    | None => (Raise (KeyError hash_key), s)         (* self.cache[hash_key] *)
    | Some cur_node =>
        match set_value k v cur_node with
        | Some (n, cur_node') =>
            (Ok n, set_cache (dict_setitem (cache s) hash_key cur_node') s)
        | None => (Raise (RuntimeError (NoSuchNode k)), s)
        end
    end).

(** The walk of [delete]: the first node with the key is unlinked, by
    [self.cache[hash_key] = cur_node.next] at the head and by
    [prev.next = cur_node.next] further on. *)
Fixpoint unlink (k : string) (cur_node : chain) : option chain :=
  match cur_node with
  | [] => None
  | n :: next =>
      if String.eqb (key n) k then Some next
      else
        match unlink k next with
        | Some next' => Some (n :: next')
        | None => None
        end
  end.

Definition delete (is_multithreading : bool) (k : string) : M unit :=
  with_lock is_multithreading (fun s =>
    let hash_key := hash_func k in
    match dict_getitem (cache s) hash_key with
    | None => (Raise (KeyError hash_key), s)         (* self.cache[hash_key] *)
    | Some cur_node =>
        match unlink k cur_node with
        | Some cur_node' =>
            (Ok tt, set_cache (dict_setitem (cache s) hash_key cur_node') s)
        | None => (Raise (RuntimeError (NoSuchNode k)), s)
        end
    end).

(** [while cur_node is not None and cur_node.key != key] *)
Fixpoint find_node (k : string) (cur_node : chain) : option Node :=
  match cur_node with
  | [] => None
  | n :: next => if String.eqb (key n) k then Some n else find_node k next
  end.

Definition search (is_multithreading : bool) (k : string) : M (option Node) :=
  with_lock is_multithreading (fun s =>
    let hash_key := hash_func k in
    if contains hash_key s then
      match dict_getitem (cache s) hash_key with
      | None => (Raise (KeyError hash_key), s)
      | Some cur_node => (Ok (find_node k cur_node), s)
      end
    else (Ok None, s)).

(** [iter(self.cache.items())]: the entries as they stand at the call. *)
Definition iterate (is_multithreading : bool) : M (list (string * chain)) :=
  with_lock is_multithreading (fun s => (Ok (cache s), s)).

End Store.

Arguments mkNode {V}.
Arguments key {V}.
Arguments value {V}.
Arguments mkDataStore {V}.
Arguments cache {V}.
Arguments capacity {V}.
Arguments lock_held {V}.
Arguments init {V}.
Arguments size {V}.
Arguments contains {V}.
Arguments dict_contains {V}.
Arguments dict_getitem {V}.
Arguments dict_setitem {V}.
Arguments insert_body {V}.
Arguments insert_ {V}.
Arguments insert {V}.
Arguments resize {V}.
Arguments resize_with {V}.
Arguments update {V}.
Arguments delete {V}.
Arguments search {V}.
Arguments iterate {V}.
Arguments find_node {V}.
Arguments has_key {V}.
Arguments set_value {V}.
Arguments unlink {V}.
Arguments while_node {V}.
Arguments for_nodes {V}.
Arguments set_cache {V}.
Arguments set_lock {V}.
Arguments with_lock {V} {A}.
Arguments M V A : clear implicits.
Arguments ret {V A}.
Arguments raise {V A}.
Arguments bind {V A B}.
Arguments get {V}.
Arguments modify {V}.

(** ** The error taxonomy of the specification, in the code's exceptions *)

Definition DuplicateKeyError (key : string) : exn := RuntimeError (AlreadyExists key).
Definition KeyNotFoundError (key : string) : exn := RuntimeError (NoSuchNode key).
Definition InvalidCapacityError : exn := RuntimeError BadCapacity.

(** ** Vocabulary of the statements *)

Section Vocabulary.

Variable V : Type.

(** The node [search] walks to: the first node with the key in the bucket
    stored under the key's digest. *)
Definition lookup (k : string) (s : DataStore V) : option (Node V) :=
  match dict_getitem (cache s) (hash_func k) with
  | Some cur_node => find_node k cur_node
  | None => None
  end.

(** The part of [insert] after the growth check. *)
Definition place (k : string) (v : V) (s : DataStore V)
  : outcome (Node V) * DataStore V :=
  match dict_getitem (cache s) (hash_func k) with
  | None =>
      (Ok (mkNode k v), set_cache (dict_setitem (cache s) (hash_func k) [mkNode k v]) s)
  | Some [] => (Raise AttributeError, s)
  | Some cur_node =>
      if has_key k cur_node then (Raise (RuntimeError (AlreadyExists k)), s)
      else (Ok (mkNode k v),
            set_cache (dict_setitem (cache s) (hash_func k) (mkNode k v :: cur_node)) s)
  end.

Definition digests (s : DataStore V) : list string := List.map fst (cache s).

(** All the nodes of the table, bucket after bucket. *)
Definition all_nodes (s : DataStore V) : list (Node V) :=
  List.concat (List.map snd (cache s)).

(** A bucket holds nodes of its own digest only, each key once. *)
Definition bucket_ok (b : string * list (Node V)) : Prop :=
  Forall (fun n => hash_func (key n) = fst b) (snd b)
  /\ NoDup (List.map key (snd b)).

(** What every table built by the operations satisfies. *)
Definition Inv (s : DataStore V) : Prop :=
  NoDup (digests s) /\ Forall bucket_ok (cache s).

(** No bucket holds [None]. *)
Definition dense (s : DataStore V) : Prop :=
  Forall (fun b : string * list (Node V) => snd b <> []) (cache s).

(** The tables [resize] builds on its way. *)
Definition Good (s : DataStore V) : Prop :=
  Inv s /\ dense s /\ 0 < capacity s /\ size s <= capacity s.

(** The calls a client can make, without threads. *)
Inductive op : Type :=
| OpInsert (k : string) (v : V)
| OpUpdate (k : string) (v : V)
| OpDelete (k : string)
| OpSearch (k : string)
| OpResize (new_capacity : Z)
| OpIterate.

(** The table a call leaves behind, however it ends. *)
Definition exec (o : op) (s : DataStore V) : DataStore V :=
  match o with
  | OpInsert k v => snd (insert false k v s)
  | OpUpdate k v => snd (update false k v s)
  | OpDelete k => snd (delete false k s)
  | OpSearch k => snd (search false k s)
  | OpResize n => snd (resize false n s)
  | OpIterate => snd (iterate false s)
  end.

(** The tables reached from [DataStore(c)]. *)
Inductive reachable_from (c : Z) : DataStore V -> Prop :=
| reach_init : reachable_from c (init c)
| reach_step (o : op) (s : DataStore V) :
    reachable_from c s -> reachable_from c (exec o s).

Definition reachable (s : DataStore V) : Prop := exists c, reachable_from c s.

(** Two chains with the same keys in the same order, and the same values
    except under key [k]. *)
Definition chain_same_but (k : string) (c c' : list (Node V)) : Prop :=
  Forall2 (fun n n' => key n = key n' /\ (key n <> k -> n = n')) c c'.

(** Two dicts with the same digests in the same order, and chains that
    differ at most in the value under key [k]. *)
Definition dict_same_but (k : string) (d d' : list (string * list (Node V))) : Prop :=
  Forall2 (fun b b' => fst b = fst b' /\ chain_same_but k (snd b) (snd b')) d d'.

(** The buckets that hold a node. *)
Definition populated (s : DataStore V) : Z :=
  Z.of_nat (List.length (List.filter
    (fun b : string * list (Node V) => match snd b with [] => false | _ => true end)
    (cache s))).

End Vocabulary.

Arguments lookup {V}.
Arguments place {V}.
Arguments digests {V}.
Arguments all_nodes {V}.
Arguments bucket_ok {V}.
Arguments Inv {V}.
Arguments dense {V}.
Arguments Good {V}.
Arguments OpInsert {V}.
Arguments OpUpdate {V}.
Arguments OpDelete {V}.
Arguments OpSearch {V}.
Arguments OpResize {V}.
Arguments OpIterate {V}.
Arguments exec {V}.
Arguments reachable_from {V}.
Arguments reach_init {V}.
Arguments reach_step {V}.
Arguments reachable {V}.
Arguments chain_same_but {V}.
Arguments dict_same_but {V}.
Arguments populated {V}.

(** ** Tables of the test scenarios *)

(** DataStore(10); insert("a", 1) *)
Definition table_a : DataStore Z := exec (OpInsert "a" 1) (init 10).

(** DataStore(10); insert("a", 1); insert("b", 2) *)
Definition table_ab : DataStore Z := exec (OpInsert "b" 2) table_a.

(** DataStore(1); insert("a", 1): a full table *)
Definition table_full_1 : DataStore Z := exec (OpInsert "a" 1) (init 1).

(** DataStore(2); insert("a", 1); insert("b", 2): a full table *)
Definition table_full_2 : DataStore Z :=
  exec (OpInsert "b" 2) (exec (OpInsert "a" 1) (init 2)).

(** DataStore(10); insert("x", 10) *)
Definition table_x : DataStore Z := exec (OpInsert "x" 10) (init 10).

(** DataStore(10); insert("x", 10); delete("x") *)
Definition table_x_deleted : DataStore Z := exec (OpDelete "x") table_x.

(** ** The digest on test vectors *)

Example sha_empty :
  Sha256.hexdigest "" = "e3b0c44298fc1c149afbf4c8996fb92427ae41e4649b934ca495991b7852b855".
Proof. vm_compute. reflexivity. Qed.

Example sha_abc :
  Sha256.hexdigest "abc" = "ba7816bf8f01cfea414140de5dae2223b00361a396177a9cb410ff61f20015ad".
Proof. vm_compute. reflexivity. Qed.

Example sha_long :
  Sha256.hexdigest "abcdbcdecdefdefgefghfghighijhijkijkljklmklmnlmnomnopnopq"
  = "248d6a61d20638b8e5c026930c3e6039a33ce45964ff2167f6ecedd419db06c1".
Proof. vm_compute. reflexivity. Qed.

(** Splits a conjunction into its parts, and nothing else. *)
Ltac conj := repeat match goal with |- _ /\ _ => split end.

(** ** The dict *)

Section DictFacts.

Variable V : Type.
Implicit Types (d : list (string * list (Node V))) (h : string) (c : list (Node V)).

Lemma dict_contains_getitem d h :
  dict_contains d h = match dict_getitem d h with Some _ => true | None => false end.
Proof.
  induction d as [|[h' c'] d IH]; simpl; [reflexivity|].
  destruct (String.eqb h' h); auto.
Qed.

Lemma dict_contains_In d h : dict_contains d h = true <-> In h (List.map fst d).
Proof.
  induction d as [|[h' c'] d IH]; simpl.
  - split; [discriminate | tauto].
  - destruct (String.eqb_spec h' h) as [->|ne].
    + split; auto.
    + rewrite IH. split; [auto | intros [e|i]; [contradiction | exact i]].
Qed.

Lemma getitem_None d h : dict_getitem d h = None <-> ~ In h (List.map fst d).
Proof.
  rewrite <- dict_contains_In, dict_contains_getitem.
  destruct (dict_getitem d h); split; intros; try discriminate; try reflexivity.
  exfalso; auto.
Qed.

Lemma getitem_In d h c : dict_getitem d h = Some c -> In (h, c) d.
Proof.
  induction d as [|[h' c'] d IH]; simpl; [discriminate|].
  destruct (String.eqb_spec h' h) as [->|ne].
  - intros [= ->]. now left.
  - intros e. right. auto.
Qed.

Lemma In_getitem d h c :
  NoDup (List.map fst d) -> In (h, c) d -> dict_getitem d h = Some c.
Proof.
  induction d as [|[h' c'] d IH]; simpl; [tauto|].
  intros nd [e|i].
  - injection e as -> ->. now rewrite String.eqb_refl.
  - inversion nd as [|x l ni nd']; subst.
    destruct (String.eqb_spec h' h) as [->|ne]; [|auto].
    exfalso. apply ni. change h with (fst (h, c)). now apply in_map.
Qed.

Lemma getitem_setitem_same d h c : dict_getitem (dict_setitem d h c) h = Some c.
Proof.
  induction d as [|[h' c'] d IH]; simpl.
  - now rewrite String.eqb_refl.
  - destruct (String.eqb_spec h' h) as [->|ne]; simpl.
    + now rewrite String.eqb_refl.
    + destruct (String.eqb_spec h' h); [contradiction | exact IH].
Qed.

Lemma getitem_setitem_other d h h' c :
  h <> h' -> dict_getitem (dict_setitem d h c) h' = dict_getitem d h'.
Proof.
  intros ne. induction d as [|[h2 c2] d IH]; simpl.
  - destruct (String.eqb_spec h h'); [contradiction | reflexivity].
  - destruct (String.eqb_spec h2 h) as [->|ne2]; simpl.
    + destruct (String.eqb_spec h h'); [contradiction | reflexivity].
    + destruct (String.eqb_spec h2 h'); [reflexivity | exact IH].
Qed.

Lemma fst_setitem d h c :
  List.map fst (dict_setitem d h c)
  = if dict_contains d h then List.map fst d else List.map fst d ++ [h].
Proof.
  induction d as [|[h' c'] d IH]; simpl; [reflexivity|].
  destruct (String.eqb_spec h' h) as [->|ne]; simpl; [reflexivity|].
  rewrite IH. now destruct (dict_contains d h).
Qed.

Lemma Forall_setitem (P : string * list (Node V) -> Prop) d h c :
  Forall P d -> P (h, c) -> Forall P (dict_setitem d h c).
Proof.
  intros F p. induction F as [|[h' c'] d px F IH]; simpl.
  - constructor; [exact p | constructor].
  - destruct (String.eqb_spec h' h) as [->|ne]; constructor; auto.
Qed.

Lemma NoDup_setitem d h c :
  NoDup (List.map fst d) -> NoDup (List.map fst (dict_setitem d h c)).
Proof.
  intros nd. rewrite fst_setitem.
  destruct (dict_contains d h) eqn:e; [exact nd|].
  apply NoDup_app; [exact nd | repeat constructor; simpl; tauto |].
  intros x i [<-|[]]. apply dict_contains_In in i. congruence.
Qed.

Lemma incl_setitem d h c (D : list string) :
  incl (List.map fst d) D -> In h D -> incl (List.map fst (dict_setitem d h c)) D.
Proof.
  intros i ih. rewrite fst_setitem.
  destruct (dict_contains d h); [exact i|].
  apply incl_app; [exact i|]. intros x [<-|[]]. exact ih.
Qed.

Lemma length_setitem d h c :
  List.length (dict_setitem d h c)
  = if dict_contains d h then List.length d else S (List.length d).
Proof.
  rewrite <- (length_map fst (dict_setitem d h c)), fst_setitem.
  destruct (dict_contains d h); [apply length_map|].
  rewrite length_app, length_map. simpl. lia.
Qed.

(** An entry written in place: the dict keeps its digests and the other
    chains. *)
Lemma setitem_Forall2 (R : string * list (Node V) -> string * list (Node V) -> Prop)
      d h c c' :
  (forall b, R b b) -> dict_getitem d h = Some c -> R (h, c) (h, c') ->
  Forall2 R d (dict_setitem d h c').
Proof.
  intros rf. induction d as [|[h' c2] d IH]; simpl; [discriminate|].
  destruct (String.eqb_spec h' h) as [->|ne]; intros e r.
  - injection e as ->. constructor; [exact r|].
    clear - rf. induction d; constructor; auto.
  - constructor; auto.
Qed.

End DictFacts.

(** ** Chains *)

Section ChainFacts.

Variable V : Type.
Implicit Types (c : list (Node V)) (k : string) (n : Node V).

Lemma has_key_find k c :
  has_key k c = match find_node k c with Some _ => true | None => false end.
Proof.
  induction c as [|n c IH]; simpl; [reflexivity|].
  destruct (String.eqb (key n) k); auto.
Qed.

Lemma find_node_Some k c n : find_node k c = Some n -> key n = k /\ In n c.
Proof.
  induction c as [|m c IH]; simpl; [discriminate|].
  destruct (String.eqb_spec (key m) k) as [e|ne].
  - intros [= <-]. auto.
  - intros f. destruct (IH f). auto.
Qed.

Lemma find_node_None k c : find_node k c = None <-> ~ In k (List.map key c).
Proof.
  induction c as [|m c IH]; simpl; [tauto|].
  destruct (String.eqb_spec (key m) k) as [e|ne].
  - split; [discriminate | intros f; exfalso; auto].
  - rewrite IH. tauto.
Qed.

Lemma find_node_app k c c' :
  find_node k (c ++ c')
  = match find_node k c with Some n => Some n | None => find_node k c' end.
Proof.
  induction c as [|m c IH]; simpl; [reflexivity|].
  destruct (String.eqb (key m) k); auto.
Qed.

Lemma find_node_other_digest k c h :
  Forall (fun n => hash_func (key n) = h) c -> hash_func k <> h -> find_node k c = None.
Proof.
  intros F ne. apply find_node_None. intros i.
  apply in_map_iff in i as (n & e & i).
  rewrite Forall_forall in F. apply F in i. congruence.
Qed.

Lemma node_eta n : mkNode (key n) (value n) = n.
Proof. now destruct n. Qed.

End ChainFacts.

(** ** [search], [contains] and the placement of a node *)

Section PlaceFacts.

Variable V : Type.
Implicit Types (s u : DataStore V) (k : string) (v : V).

Lemma search_lookup k s : search false k s = (Ok (lookup k s), s).
Proof.
  unfold search, with_lock, lookup, contains.
  rewrite dict_contains_getitem.
  now destruct (dict_getitem (cache s) (hash_func k)).
Qed.

Lemma contains_bucket (x : string) s :
  contains x s = true <-> exists c, dict_getitem (cache s) x = Some c.
Proof.
  unfold contains. rewrite dict_contains_getitem.
  destruct (dict_getitem (cache s) x) as [c|].
  - split; eauto.
  - split; [discriminate | intros [c e]; discriminate].
Qed.

Lemma insert_body_place (rsz : Z -> M V unit) k v s :
  insert_body rsz k v s
  = if size s =? capacity s then
      match rsz (ceil_1_5 (capacity s)) s with
      | (Ok _, s1) => place k v s1
      | (Raise e, s1) => (Raise e, s1)
      | (Deadlock, s1) => (Deadlock, s1)
      | (OutOfFuel, s1) => (OutOfFuel, s1)
      end
    else place k v s.
Proof.
  unfold insert_body, bind, get, ret, raise, modify, place, contains.
  destruct (size s =? capacity s).
  - destruct (rsz (ceil_1_5 (capacity s)) s) as [[[]|e| |] s1]; try reflexivity.
    rewrite dict_contains_getitem.
    destruct (dict_getitem (cache s1) (hash_func k)) as [[|n next]|]; try reflexivity.
    destruct (has_key k (n :: next)); reflexivity.
  - rewrite dict_contains_getitem.
    destruct (dict_getitem (cache s) (hash_func k)) as [[|n next]|]; try reflexivity.
    destruct (has_key k (n :: next)); reflexivity.
Qed.

Lemma insert_unfold f k v s :
  insert_ false (S f) k v s
  = if size s =? capacity s then
      match resize_with (insert_ false f) (ceil_1_5 (capacity s)) s with
      | (Ok _, s1) => place k v s1
      | (Raise e, s1) => (Raise e, s1)
      | (Deadlock, s1) => (Deadlock, s1)
      | (OutOfFuel, s1) => (OutOfFuel, s1)
      end
    else place k v s.
Proof. cbn [insert_ with_lock]. apply insert_body_place. Qed.

Lemma lookup_setitem k k' (n : Node V) (c : list (Node V)) s :
  key n = k ->
  match dict_getitem (cache s) (hash_func k) with
  | Some c' => c' = c
  | None => c = []
  end ->
  lookup k' (set_cache (dict_setitem (cache s) (hash_func k) (n :: c)) s)
  = if String.eqb k' k then Some n else lookup k' s.
Proof.
  intros kn g. unfold lookup. cbn [cache set_cache].
  destruct (String.eqb_spec (hash_func k) (hash_func k')) as [e|ne].
  - rewrite <- e, getitem_setitem_same. cbn [find_node]. rewrite kn.
    rewrite (String.eqb_sym k' k).
    destruct (String.eqb_spec k k') as [->|nk]; [reflexivity|].
    destruct (dict_getitem (cache s) (hash_func k)); subst; reflexivity.
  - rewrite getitem_setitem_other by exact ne.
    destruct (String.eqb_spec k' k) as [->|nk]; [contradiction | reflexivity].
Qed.

Lemma Inv_setitem k (n : Node V) (c : list (Node V)) s :
  key n = k -> Inv s ->
  match dict_getitem (cache s) (hash_func k) with
  | Some c' => c' = c
  | None => c = []
  end ->
  find_node k c = None ->
  Inv (set_cache (dict_setitem (cache s) (hash_func k) (n :: c)) s).
Proof.
  intros kn [nd F] g fr. split.
  - unfold digests. cbn [cache set_cache]. now apply NoDup_setitem.
  - cbn [cache set_cache]. apply Forall_setitem; [exact F|].
    assert (bc : bucket_ok (hash_func k, c)).
    { destruct (dict_getitem (cache s) (hash_func k)) as [c'|] eqn:e; subst.
      - rewrite Forall_forall in F. apply (F _ (getitem_In _ _ _ _ e)).
      - split; constructor. }
    destruct bc as [bh bn]. split; cbn [fst snd] in *.
    + constructor; [now rewrite kn | exact bh].
    + cbn [List.map]. constructor; [|exact bn].
      rewrite kn. now apply find_node_None.
Qed.

(** What a placement that returns has done. *)
Lemma place_Ok k v s n s' :
  place k v s = (Ok n, s') ->
  n = mkNode k v
  /\ capacity s' = capacity s
  /\ lock_held s' = lock_held s
  /\ lookup k s = None
  /\ (forall k', lookup k' s' = if String.eqb k' k then Some (mkNode k v) else lookup k' s)
  /\ size s' = (if contains (hash_func k) s then size s else size s + 1)
  /\ contains (hash_func k) s' = true
  /\ (Inv s -> Inv s')
  /\ (dense s -> dense s')
  /\ (forall D, incl (digests s) D -> In (hash_func k) D -> incl (digests s') D).
Proof.
  unfold place. intros p.
  assert (exists c,
    s' = set_cache (dict_setitem (cache s) (hash_func k) (mkNode k v :: c)) s
    /\ n = mkNode k v
    /\ match dict_getitem (cache s) (hash_func k) with
       | Some c' => c' = c
       | None => c = []
       end
    /\ find_node k c = None) as (c & -> & -> & g & fr).
  { destruct (dict_getitem (cache s) (hash_func k)) as [[|m next]|] eqn:e.
    - discriminate.
    - rewrite has_key_find in p.
      destruct (find_node k (m :: next)) eqn:f; [discriminate|].
      injection p as <- <-. exists (m :: next). auto.
    - injection p as <- <-. exists []. auto. }
  split; [reflexivity|]. split; [reflexivity|]. split; [reflexivity|].
  split. { unfold lookup. destruct (dict_getitem (cache s) (hash_func k)); subst; auto. }
  split. { intros k'. now apply lookup_setitem. }
  split. { unfold size, contains. cbn [cache set_cache]. rewrite length_setitem.
           destruct (dict_contains (cache s) (hash_func k)). 1: (clear; lia). lia. }
  split. { unfold contains. cbn [cache set_cache].
           now rewrite dict_contains_getitem, getitem_setitem_same. }
  split. { intros I. now apply Inv_setitem. }
  split. { unfold dense. cbn [cache set_cache]. intros d.
           apply Forall_setitem; [exact d | discriminate]. }
  intros D i ih. unfold digests. cbn [cache set_cache]. now apply incl_setitem.
Qed.

(** A placement that raises has changed nothing. *)
Lemma place_Raise k v s e s' :
  place k v s = (Raise e, s') ->
  s' = s
  /\ (e = AttributeError /\ dict_getitem (cache s) (hash_func k) = Some []
      \/ e = RuntimeError (AlreadyExists k) /\ exists n, lookup k s = Some n).
Proof.
  unfold place, lookup.
  destruct (dict_getitem (cache s) (hash_func k)) as [[|m next]|] eqn:g.
  - intros [= <- <-]. auto.
  - rewrite has_key_find.
    destruct (find_node k (m :: next)) as [n|] eqn:f; [|discriminate].
    intros [= <- <-]. split; [reflexivity|]. right. eauto.
  - discriminate.
Qed.

Lemma place_returns_or_raises k v s :
  (exists n s', place k v s = (Ok n, s')) \/ (exists e s', place k v s = (Raise e, s')).
Proof.
  unfold place.
  destruct (dict_getitem (cache s) (hash_func k)) as [[|m next]|]; eauto.
  destruct (has_key k (m :: next)); eauto.
Qed.

Lemma place_fresh k v s :
  dense s -> lookup k s = None -> exists s', place k v s = (Ok (mkNode k v), s').
Proof.
  intros d fr. unfold place. unfold lookup in fr.
  destruct (dict_getitem (cache s) (hash_func k)) as [[|m next]|] eqn:g; eauto.
  - apply getitem_In in g. unfold dense in d. rewrite Forall_forall in d.
    apply d in g. now contradiction g.
  - rewrite has_key_find, fr. eauto.
Qed.

Lemma place_duplicate k v s n :
  lookup k s = Some n -> place k v s = (Raise (RuntimeError (AlreadyExists k)), s).
Proof.
  intros f. unfold place. unfold lookup in f.
  destruct (dict_getitem (cache s) (hash_func k)) as [[|m next]|] eqn:g; try discriminate.
  now rewrite has_key_find, f.
Qed.

End PlaceFacts.

(** ** The nodes of a well-formed table *)

Section InvFacts.

Variable V : Type.
Implicit Types (s u : DataStore V) (k : string) (v : V).

Lemma Inv_init (c : Z) : Inv (@init V c).
Proof. split; constructor. Qed.

Lemma Inv_cons (b : string * list (Node V)) d cap l cap' l' :
  Inv (mkDataStore (b :: d) cap l) -> Inv (mkDataStore d cap' l').
Proof.
  intros [nd F]. unfold Inv, digests in *. cbn [cache List.map] in *.
  inversion nd; inversion F; subst. auto.
Qed.

(** Every node sits under the digest of its key. *)
Lemma Inv_nodes_digests s :
  Inv s -> Forall (fun n => In (hash_func (key n)) (digests s)) (all_nodes s).
Proof.
  intros [_ F]. unfold all_nodes, digests.
  induction F as [|[h c] d [bh _] F IH]; cbn [List.map List.concat fst snd] in *.
  - constructor.
  - apply Forall_app. split.
    + eapply Forall_impl; [|exact bh]. cbn. intros n e. now left.
    + eapply Forall_impl; [|exact IH]. cbn. intros n i. now right.
Qed.

(** No key occurs twice in the table. *)
Lemma Inv_nodes_NoDup s : Inv s -> NoDup (List.map key (all_nodes s)).
Proof.
  destruct s as [d cap l]. unfold all_nodes. cbn [cache].
  induction d as [|[h c] d IH]; intros I; cbn [List.map List.concat snd].
  - constructor.
  - rewrite map_app.
    pose proof (Inv_nodes_digests _ (Inv_cons _ _ _ _ cap l I)) as dg.
    destruct I as [nd F]. unfold digests in *. cbn [cache List.map fst] in *.
    inversion nd as [|x y ni nd']; inversion F as [|x' y' [bh bn] F']; subst.
    cbn [fst snd] in *.
    apply NoDup_app; [exact bn | apply IH; split; assumption |].
    intros x i1 i2.
    apply in_map_iff in i1 as (n1 & <- & i1).
    apply in_map_iff in i2 as (n2 & e & i2).
    rewrite Forall_forall in bh, dg.
    apply bh in i1. apply dg in i2. cbn [digests cache] in i2.
    rewrite e, i1 in i2. contradiction.
Qed.

(** [search] finds a key wherever it is in the table. *)
Lemma Inv_lookup_nodes s k : Inv s -> lookup k s = find_node k (all_nodes s).
Proof.
  destruct s as [d cap l]. unfold all_nodes, lookup. cbn [cache].
  induction d as [|[h c] d IH]; intros I; cbn [List.map List.concat snd dict_getitem].
  - reflexivity.
  - rewrite find_node_app.
    pose proof (Inv_nodes_digests _ (Inv_cons _ _ _ _ cap l I)) as dg.
    pose proof (IH (Inv_cons _ _ _ _ cap l I)) as IH'.
    destruct I as [nd F]. unfold digests in *. cbn [cache List.map fst] in *.
    inversion nd as [|x y ni nd']; inversion F as [|x' y' [bh bn] F']; subst.
    cbn [fst snd] in *.
    destruct (String.eqb_spec h (hash_func k)) as [->|ne].
    + destruct (find_node k c) as [n|]; [reflexivity|].
      symmetry. apply find_node_None. intros i.
      apply in_map_iff in i as (n & e & i).
      rewrite Forall_forall in dg. apply dg in i. cbn [digests cache] in i.
      rewrite e in i. contradiction.
    + rewrite (find_node_other_digest _ k c h bh) by congruence. exact IH'.
Qed.

Lemma size_digests s : size s = Z.of_nat (List.length (digests s)).
Proof. unfold size, digests. now rewrite length_map. Qed.

Lemma Inv_size_le s (D : list string) :
  Inv s -> incl (digests s) D -> size s <= Z.of_nat (List.length D).
Proof.
  intros [nd _] i. rewrite size_digests.
  apply Nat2Z.inj_le. now apply NoDup_incl_length.
Qed.

End InvFacts.

(** ** Rehashing *)

Section Rehash.

Variable V : Type.
Implicit Types (s u : DataStore V) (k : string) (v : V).
Implicit Types (ins : string -> V -> M V (Node V)) (ns : list (Node V)).

Lemma while_node_cons ins (n : Node V) ns s :
  while_node ins (n :: ns) s
  = match ins (key n) (value n) s with
    | (Ok _, s1) => while_node ins ns s1
    | (Raise e, s1) => (Raise e, s1)
    | (Deadlock, s1) => (Deadlock, s1)
    | (OutOfFuel, s1) => (OutOfFuel, s1)
    end.
Proof. reflexivity. Qed.

Lemma while_node_app ins ns ns' s :
  while_node ins (ns ++ ns') s
  = match while_node ins ns s with
    | (Ok _, s1) => while_node ins ns' s1
    | (Raise e, s1) => (Raise e, s1)
    | (Deadlock, s1) => (Deadlock, s1)
    | (OutOfFuel, s1) => (OutOfFuel, s1)
    end.
Proof.
  revert s. induction ns as [|n ns IH]; intros s.
  - reflexivity.
  - cbn [app]. rewrite !while_node_cons.
    destruct (ins (key n) (value n) s) as [[a|e| |] s1]; auto.
Qed.

(** The two loops of [resize] visit the nodes bucket after bucket. *)
Lemma for_nodes_concat ins (nodes : list (list (Node V))) s :
  for_nodes ins nodes s = while_node ins (List.concat nodes) s.
Proof.
  revert s. induction nodes as [|c nodes IH]; intros s.
  - reflexivity.
  - cbn [List.concat]. rewrite while_node_app.
    cbn [for_nodes]. unfold bind.
    destruct (while_node ins c s) as [[a|e| |] s1]; auto.
Qed.

Lemma resize_unfold ins (n : Z) s :
  0 < n ->
  resize_with ins n s
  = while_node ins (all_nodes s) (mkDataStore [] n (lock_held s)).
Proof.
  intros pos. unfold resize_with.
  destruct (Z.leb_spec n 0); [lia|]. apply for_nodes_concat.
Qed.

Lemma resize_bad_capacity ins (n : Z) s :
  n <= 0 -> resize_with ins n s = (Raise InvalidCapacityError, s).
Proof.
  intros le. unfold resize_with. destruct (Z.leb_spec n 0); [reflexivity | lia].
Qed.

Lemma insert_no_growth f k v s :
  size s <> capacity s -> insert_ false (S f) k v s = place k v s.
Proof.
  intros ne. rewrite insert_unfold. now destruct (Z.eqb_spec (size s) (capacity s)).
Qed.

(** Nodes rehashed into a table that has room for all their digests: no
    insertion finds the table full. *)
Lemma rehash_no_growth f (D : list string) ns :
  forall u,
    Inv u -> dense u -> incl (digests u) D ->
    Z.of_nat (List.length D) < capacity u ->
    Forall (fun n => In (hash_func (key n)) D) ns ->
    NoDup (List.map key ns) ->
    (forall n, In n ns -> lookup (key n) u = None) ->
    exists u',
      while_node (insert_ false (S f)) ns u = (Ok tt, u')
      /\ Inv u' /\ dense u' /\ incl (digests u') D
      /\ capacity u' = capacity u
      /\ lock_held u' = lock_held u
      /\ forall k, lookup k u'
                   = match find_node k ns with Some n => Some n | None => lookup k u end.
Proof.
  induction ns as [|n ns IH]; intros u I d i lt F nd fr.
  - exists u. cbn. auto 10.
  - rewrite while_node_cons.
    rewrite insert_no_growth by (pose proof (Inv_size_le _ u D I i); lia).
    destruct (place_fresh _ (key n) (value n) u d (fr n (or_introl eq_refl))) as [u1 p].
    rewrite p.
    destruct (place_Ok _ _ _ _ _ _ p) as (_ & cap & lk & _ & lu & _ & _ & I1 & d1 & i1).
    inversion F as [|x y hn F']; subst. inversion nd as [|x y ni nd']; subst.
    destruct (IH u1) as (u' & w & I' & d' & i' & cap' & lk' & lu'); auto.
    { congruence. }
    { intros m im. rewrite lu.
      destruct (String.eqb_spec (key m) (key n)) as [e|ne]; [|auto using in_cons].
      exfalso. apply ni. rewrite <- e. now apply in_map. }
    exists u'. rewrite w. conj; auto; try congruence.
    intros k. rewrite lu', lu. cbn [find_node].
    rewrite (String.eqb_sym k (key n)).
    destruct (String.eqb_spec (key n) k) as [e|ne]; [|reflexivity].
    rewrite node_eta.
    destruct (find_node k ns) as [m|] eqn:fm; [|reflexivity].
    exfalso. apply ni. apply find_node_Some in fm as [<- im].
    rewrite e. now apply in_map.
Qed.

(** [resize] to a capacity above the number of digests in use: the table
    is rebuilt at that capacity and holds what it held. *)
Lemma resize_no_growth f (D : list string) (n : Z) s :
  Inv s -> 0 < n ->
  Forall (fun m => In (hash_func (key m)) D) (all_nodes s) ->
  Z.of_nat (List.length D) < n ->
  exists u,
    resize_with (insert_ false (S f)) n s = (Ok tt, u)
    /\ Inv u /\ dense u /\ incl (digests u) D
    /\ capacity u = n
    /\ lock_held u = lock_held s
    /\ forall k, lookup k u = lookup k s.
Proof.
  intros I pos F lt. rewrite resize_unfold by exact pos.
  destruct (rehash_no_growth f D (all_nodes s) (mkDataStore [] n (lock_held s)))
    as (u & w & I' & d' & i' & cap' & lk' & lu'); auto.
  - split; constructor.
  - constructor.
  - intros x [].
  - now apply Inv_nodes_NoDup.
  - exists u. conj; auto.
    intros k. rewrite lu', (Inv_lookup_nodes _ s k I).
    now destruct (find_node k (all_nodes s)).
Qed.

Lemma ceil_1_5_grows (c : Z) : 0 < c -> c < ceil_1_5 c.
Proof.
  intros pos. unfold ceil_1_5.
  assert (c + 1 <= (3 * c + 1) / 2); [|lia].
  apply Z.div_le_lower_bound; lia.
Qed.

Lemma ceil_1_5_nonpos (c : Z) : c <= 0 -> ceil_1_5 c <= 0.
Proof.
  intros le. unfold ceil_1_5.
  assert ((3 * c + 1) / 2 < 1); [|lia].
  apply Z.div_lt_upper_bound; lia.
Qed.

(** The growth step of [insert] on a full table. *)
Lemma grow_full f s :
  Inv s -> size s = capacity s -> 0 < capacity s ->
  exists u,
    resize_with (insert_ false (S f)) (ceil_1_5 (capacity s)) s = (Ok tt, u)
    /\ Inv u /\ dense u
    /\ size u < capacity u
    /\ capacity u = ceil_1_5 (capacity s)
    /\ lock_held u = lock_held s
    /\ forall k, lookup k u = lookup k s.
Proof.
  intros I full pos.
  pose proof (ceil_1_5_grows _ pos) as gr.
  destruct (resize_no_growth f (digests s) (ceil_1_5 (capacity s)) s)
    as (u & w & I' & d' & i' & cap' & lk' & lu'); auto.
  - lia.
  - now apply Inv_nodes_digests.
  - rewrite <- size_digests. lia.
  - exists u. conj; auto.
    pose proof (Inv_size_le _ u _ I' i'). rewrite <- size_digests in *. lia.
Qed.

(** [insert] on a full table: the table grows, then the node is placed. *)
Lemma insert_full f k v s :
  Inv s -> size s = capacity s -> 0 < capacity s ->
  exists u,
    insert_ false (S (S f)) k v s = place k v u
    /\ resize_with (insert_ false (S f)) (ceil_1_5 (capacity s)) s = (Ok tt, u)
    /\ Inv u /\ dense u
    /\ size u < capacity u
    /\ capacity u = ceil_1_5 (capacity s)
    /\ lock_held u = lock_held s
    /\ forall k, lookup k u = lookup k s.
Proof.
  intros I full pos.
  destruct (grow_full f s I full pos) as (u & w & rest).
  exists u. split; [|split; [exact w | exact rest]].
  rewrite insert_unfold, w.
  now destruct (Z.eqb_spec (size s) (capacity s)).
Qed.

(** [insert] on a full table of capacity 0 or less: the growth step
    raises and the table is as it was. *)
Lemma insert_bad_capacity f k v s :
  size s = capacity s -> capacity s <= 0 ->
  insert_ false (S f) k v s = (Raise InvalidCapacityError, s).
Proof.
  intros full le. rewrite insert_unfold.
  destruct (Z.eqb_spec (size s) (capacity s)); [|contradiction].
  now rewrite resize_bad_capacity by now apply ceil_1_5_nonpos.
Qed.

(** [insert] into a table built by [resize]. *)
Lemma insert_Good f k v u :
  Good u ->
  exists r u',
    insert_ false (S (S f)) k v u = (r, u')
    /\ Good u'
    /\ capacity u <= capacity u'
    /\ lock_held u' = lock_held u
    /\ match lookup k u with
       | None =>
           r = Ok (mkNode k v)
           /\ forall k', lookup k' u'
                         = if String.eqb k' k then Some (mkNode k v) else lookup k' u
       | Some _ =>
           r = Raise (DuplicateKeyError k)
           /\ forall k', lookup k' u' = lookup k' u
       end.
Proof.
  intros (I & d & pos & le).
  assert (exists b,
    insert_ false (S (S f)) k v u = place k v b
    /\ Inv b /\ dense b /\ size b < capacity b /\ capacity u <= capacity b
    /\ lock_held b = lock_held u /\ forall k, lookup k b = lookup k u)
    as (b & -> & Ib & db & lt & cb & lb & lub).
  { destruct (Z.eq_dec (size u) (capacity u)) as [full|nf].
    - destruct (insert_full f k v u I full pos) as (b & e & _ & Ib & db & lt & cb & lb & lub).
      exists b. conj; auto. pose proof (ceil_1_5_grows _ pos). lia.
    - exists u. conj; auto; try lia. now apply insert_no_growth. }
  destruct (lookup k u) as [n|] eqn:lk; rewrite <- lub in lk.
  - exists (Raise (DuplicateKeyError k)), b.
    rewrite (place_duplicate _ k v b n lk).
    unfold Good. conj; auto; lia.
  - destruct (place_fresh _ k v b db lk) as [u' p]. rewrite p.
    destruct (place_Ok _ _ _ _ _ _ p) as (_ & cap & lk' & _ & lu & sz & _ & I1 & d1 & _).
    exists (Ok (mkNode k v)), u'.
    unfold Good. conj; auto; try congruence; try lia.
    + destruct (contains (hash_func k) b); lia.
    + intros k'. now rewrite lu, lub.
Qed.

(** Nodes rehashed into a table that may grow on the way. *)
Lemma rehash_growth f ns :
  forall u,
    Good u ->
    NoDup (List.map key ns) ->
    (forall n, In n ns -> lookup (key n) u = None) ->
    exists u',
      while_node (insert_ false (S (S f))) ns u = (Ok tt, u')
      /\ Good u'
      /\ capacity u <= capacity u'
      /\ lock_held u' = lock_held u
      /\ forall k, lookup k u'
                   = match find_node k ns with Some n => Some n | None => lookup k u end.
Proof.
  induction ns as [|n ns IH]; intros u G nd fr.
  - exists u. cbn. conj; auto. lia.
  - rewrite while_node_cons.
    destruct (insert_Good f (key n) (value n) u G) as (r & u1 & e & G1 & c1 & l1 & sp).
    rewrite (fr n (or_introl eq_refl)) in sp. destruct sp as [-> lu].
    rewrite e. inversion nd as [|x y ni nd']; subst.
    destruct (IH u1) as (u' & w & G' & c' & l' & lu'); auto.
    { intros m im. rewrite lu.
      destruct (String.eqb_spec (key m) (key n)) as [e'|ne]; [|auto using in_cons].
      exfalso. apply ni. rewrite <- e'. now apply in_map. }
    exists u'. rewrite w. conj; auto; try congruence; try lia.
    intros k. rewrite lu', lu. cbn [find_node].
    rewrite (String.eqb_sym k (key n)).
    destruct (String.eqb_spec (key n) k) as [e'|ne]; [|reflexivity].
    rewrite node_eta.
    destruct (find_node k ns) as [m|] eqn:fm; [|reflexivity].
    exfalso. apply ni. apply find_node_Some in fm as [<- im].
    rewrite e'. now apply in_map.
Qed.

(** Whatever the nodes, rehashing them returns or raises. *)
Lemma rehash_any f ns :
  forall u,
    Good u ->
    exists r u',
      while_node (insert_ false (S (S f))) ns u = (r, u')
      /\ (r = Ok tt \/ exists e, r = Raise e)
      /\ Good u'
      /\ lock_held u' = lock_held u.
Proof.
  induction ns as [|n ns IH]; intros u G.
  - exists (Ok tt), u. cbn. auto.
  - rewrite while_node_cons.
    destruct (insert_Good f (key n) (value n) u G) as (r & u1 & e & G1 & c1 & l1 & sp).
    rewrite e. destruct (lookup (key n) u); destruct sp as [-> _].
    + exists (Raise (DuplicateKeyError (key n))), u1. eauto 6.
    + destruct (IH u1 G1) as (r & u' & w & o & G' & l').
      exists r, u'. conj; auto. congruence.
Qed.

Lemma Good_empty (n : Z) (l : bool) : 0 < n -> Good (@mkDataStore V [] n l).
Proof.
  intros pos. unfold Good, Inv, dense, digests, size. cbn.
  conj; try constructor; lia.
Qed.

(** [resize] of a well-formed table to any capacity above 0. *)
Lemma resize_Inv f (n : Z) s :
  Inv s -> 0 < n ->
  exists u,
    resize_with (insert_ false (S (S f))) n s = (Ok tt, u)
    /\ Good u
    /\ n <= capacity u
    /\ lock_held u = lock_held s
    /\ forall k, lookup k u = lookup k s.
Proof.
  intros I pos. rewrite resize_unfold by exact pos.
  destruct (rehash_growth f (all_nodes s) (mkDataStore [] n (lock_held s)))
    as (u & w & G & c & l & lu).
  - now apply Good_empty.
  - now apply Inv_nodes_NoDup.
  - reflexivity.
  - exists u. conj; auto.
    intros k. rewrite lu, (Inv_lookup_nodes _ s k I).
    now destruct (find_node k (all_nodes s)).
Qed.

End Rehash.

(** ** The depth of the recursion *)

Section Fuel.

Variable V : Type.
Implicit Types (s u : DataStore V) (k : string) (v : V).
Implicit Types (ins : string -> V -> M V (Node V)) (ns : list (Node V)).

Lemma with_lock_ext (A : Type) (mt : bool) (b1 b2 : M V A) :
  (forall s r s', b1 s = (r, s') -> r <> OutOfFuel -> b2 s = (r, s')) ->
  forall s r s', with_lock mt b1 s = (r, s') -> r <> OutOfFuel ->
                 with_lock mt b2 s = (r, s').
Proof.
  intros ext s r s'. destruct mt; cbn [with_lock]; [|apply ext].
  destruct (lock_held s); [auto|].
  destruct (b1 (set_lock true s)) as [[a|e| |] s1] eqn:e1;
    intros [= <- <-] ne; try congruence;
    now rewrite (ext _ _ _ e1).
Qed.

Lemma while_node_ext ins1 ins2 :
  (forall k v s r s', ins1 k v s = (r, s') -> r <> OutOfFuel -> ins2 k v s = (r, s')) ->
  forall ns s r s', while_node ins1 ns s = (r, s') -> r <> OutOfFuel ->
                    while_node ins2 ns s = (r, s').
Proof.
  intros ext. induction ns as [|n ns IH]; intros s r s'.
  - auto.
  - rewrite !while_node_cons.
    destruct (ins1 (key n) (value n) s) as [[a|e| |] s1] eqn:e1;
      intros w ne; try (injection w as <- <-);
      try (rewrite (ext _ _ _ _ _ e1) by congruence); auto; congruence.
Qed.

Lemma resize_with_ext ins1 ins2 :
  (forall k v s r s', ins1 k v s = (r, s') -> r <> OutOfFuel -> ins2 k v s = (r, s')) ->
  forall (n : Z) s r s', resize_with ins1 n s = (r, s') -> r <> OutOfFuel ->
                         resize_with ins2 n s = (r, s').
Proof.
  intros ext n s r s'. unfold resize_with.
  destruct (n <=? 0); [auto|].
  rewrite !for_nodes_concat. now apply while_node_ext.
Qed.

Lemma insert_body_ext (rsz1 rsz2 : Z -> M V unit) k v :
  (forall n s r s', rsz1 n s = (r, s') -> r <> OutOfFuel -> rsz2 n s = (r, s')) ->
  forall s r s', insert_body rsz1 k v s = (r, s') -> r <> OutOfFuel ->
                 insert_body rsz2 k v s = (r, s').
Proof.
  intros ext s r s'. rewrite !insert_body_place.
  destruct (size s =? capacity s); [|auto].
  destruct (rsz1 (ceil_1_5 (capacity s)) s) as [[a|e| |] s1] eqn:e1;
    intros w ne; try (injection w as <- <-);
    try (rewrite (ext _ _ _ _ e1) by congruence); auto; congruence.
Qed.

(** A call that ends within [fuel] levels ends the same way with more. *)
Lemma insert_fuel_mono (mt : bool) (fuel : nat) :
  forall k v s r s',
    insert_ mt fuel k v s = (r, s') -> r <> OutOfFuel ->
    insert_ mt (S fuel) k v s = (r, s').
Proof.
  induction fuel as [|fuel IH]; intros k v s r s'.
  - cbn [insert_]. intros [= <- <-] ne. congruence.
  - change (insert_ mt (S fuel) k v)
      with (with_lock mt (insert_body (resize_with (insert_ mt fuel)) k v)).
    change (insert_ mt (S (S fuel)) k v)
      with (with_lock mt (insert_body (resize_with (insert_ mt (S fuel))) k v)).
    apply with_lock_ext. apply insert_body_ext. apply resize_with_ext. exact IH.
Qed.

(** Under the lock, a nested [insert] blocks at once. *)
Lemma while_node_locked f ns u :
  lock_held u = true ->
  while_node (insert_ true (S f)) ns u
  = match ns with [] => (Ok tt, u) | _ => (Deadlock, u) end.
Proof.
  intros l. destruct ns as [|n ns]; [reflexivity|].
  rewrite while_node_cons. cbn [insert_ with_lock]. now rewrite l.
Qed.

Lemma place_not_OutOfFuel k v s : fst (place k v s) <> OutOfFuel.
Proof.
  destruct (place_returns_or_raises _ k v s) as [(n & s' & e)|(x & s' & e)];
    rewrite e; discriminate.
Qed.

(** Three levels are enough on every table. *)
Lemma insert_depth_total (mt : bool) f k v s :
  fst (insert_ mt (S (S (S f))) k v s) <> OutOfFuel.
Proof.
  destruct mt.
  - change (insert_ true (S (S (S f))) k v s)
      with (with_lock true (insert_body (resize_with (insert_ true (S (S f)))) k v) s).
    cbn [with_lock]. destruct (lock_held s); [discriminate|].
    rewrite insert_body_place.
    destruct (size (set_lock true s) =? capacity (set_lock true s)).
    + unfold resize_with at 1.
      destruct (ceil_1_5 (capacity (set_lock true s)) <=? 0); [discriminate|].
      rewrite for_nodes_concat.
      rewrite while_node_locked by reflexivity.
      destruct (List.concat (List.map snd (cache (set_lock true s)))); [|discriminate].
      pose proof (place_not_OutOfFuel k v
        (mkDataStore [] (ceil_1_5 (capacity (set_lock true s)))
                     (lock_held (set_lock true s)))) as ne.
      destruct (place k v _) as [[a|e| |] s1]; cbn in *; congruence.
    + pose proof (place_not_OutOfFuel k v (set_lock true s)) as ne.
      destruct (place k v _) as [[a|e| |] s1]; cbn in *; congruence.
  - rewrite insert_unfold.
    destruct (size s =? capacity s); [|apply place_not_OutOfFuel].
    destruct (Z.leb_spec (ceil_1_5 (capacity s)) 0) as [le|pos].
    + now rewrite resize_bad_capacity.
    + rewrite resize_unfold by exact pos.
      destruct (rehash_any _ f (all_nodes s)
                  (mkDataStore [] (ceil_1_5 (capacity s)) (lock_held s)))
        as (r & u & w & [->|[e ->]] & _); [now apply Good_empty | |];
        rewrite w; [apply place_not_OutOfFuel | discriminate].
Qed.

(** [insert] is the method at every depth from [depth] on. *)
Lemma insert_fuel_enough (mt : bool) f k v s :
  insert_ mt (depth + f) k v s = insert mt k v s.
Proof.
  unfold insert. induction f as [|f IH].
  - now rewrite Nat.add_0_r.
  - rewrite Nat.add_succ_r.
    destruct (insert_ mt depth k v s) as [r s'] eqn:e.
    apply insert_fuel_mono; [exact IH|].
    pose proof (insert_depth_total mt 0 k v s) as ne.
    unfold depth in e. now rewrite e in ne.
Qed.

Lemma while_node_eq ins1 ins2 :
  (forall k v s, ins1 k v s = ins2 k v s) ->
  forall ns s, while_node ins1 ns s = while_node ins2 ns s.
Proof.
  intros eq. induction ns as [|n ns IH]; intros s; [reflexivity|].
  rewrite !while_node_cons, eq.
  destruct (ins2 (key n) (value n) s) as [[a|e| |] s1]; auto.
Qed.

(** [resize] is the method at every depth from [depth] on. *)
Lemma resize_fuel_enough (mt : bool) f (n : Z) s :
  resize_with (insert_ mt (depth + f)) n s = resize mt n s.
Proof.
  unfold resize, resize_with. destruct (n <=? 0); [reflexivity|].
  rewrite !for_nodes_concat. apply while_node_eq.
  intros k v u. apply insert_fuel_enough.
Qed.

End Fuel.

(** ** [update] and [delete] *)

Section UpdateDelete.

Variable V : Type.
Implicit Types (s u : DataStore V) (k : string) (v : V) (c : list (Node V)).

Lemma set_value_None k v c : set_value k v c = None <-> find_node k c = None.
Proof.
  induction c as [|m c IH]; cbn [set_value find_node]; [tauto|].
  destruct (String.eqb (key m) k); [split; discriminate|].
  destruct (set_value k v c) as [[r c']|]; rewrite <- IH; split; auto; discriminate.
Qed.

Lemma set_value_Some k v c n c' :
  set_value k v c = Some (n, c') ->
  n = mkNode k v
  /\ chain_same_but k c c'
  /\ find_node k c' = Some (mkNode k v)
  /\ exists m, find_node k c = Some m.
Proof.
  revert n c'. induction c as [|m c IH]; intros n c'; cbn [set_value find_node].
  - discriminate.
  - destruct (String.eqb_spec (key m) k) as [e|ne].
    + intros [= <- <-]. rewrite e. conj; eauto.
      * constructor.
        -- cbn. split; [now symmetry | intros ne; contradiction].
        -- clear. induction c; constructor; auto.
      * cbn [find_node key]. now rewrite String.eqb_refl.
    + destruct (set_value k v c) as [[r c2]|]; [|discriminate].
      intros [= <- <-]. destruct (IH r c2 eq_refl) as (-> & sb & f & m' & fm).
      conj; eauto.
      * constructor; auto.
      * cbn [find_node]. now destruct (String.eqb_spec (key m) k).
Qed.

Lemma chain_same_but_keys k c c' :
  chain_same_but k c c' -> List.map key c' = List.map key c.
Proof.
  induction 1 as [|n n' c c' [e _] F IH]; cbn [List.map]; congruence.
Qed.

Lemma chain_same_but_find k k' c c' :
  chain_same_but k c c' -> k' <> k -> find_node k' c' = find_node k' c.
Proof.
  intros sb ne. induction sb as [|n n' c c' [e o] F IH]; cbn [find_node]; [reflexivity|].
  rewrite <- e. destruct (String.eqb_spec (key n) k') as [e'|ne'].
  - rewrite o by congruence. reflexivity.
  - exact IH.
Qed.

Lemma chain_same_but_ok k h c c' :
  chain_same_but k c c' -> bucket_ok (h, c) -> bucket_ok (h, c').
Proof.
  intros sb [bh bn]. cbn [fst snd] in *. split; cbn [fst snd].
  - clear bn. induction sb as [|n n' c c' [e _] F IH]; constructor;
      inversion bh; subst; auto. congruence.
  - now rewrite (chain_same_but_keys _ _ _ sb).
Qed.

Lemma unlink_None k c : unlink k c = None <-> find_node k c = None.
Proof.
  induction c as [|m c IH]; cbn [unlink find_node]; [tauto|].
  destruct (String.eqb (key m) k); [split; discriminate|].
  destruct (unlink k c) as [c'|]; rewrite <- IH; split; auto; discriminate.
Qed.

Lemma unlink_Some k c c' :
  unlink k c = Some c' ->
  (forall n, In n c' -> In n c)
  /\ (NoDup (List.map key c) -> NoDup (List.map key c'))
  /\ (NoDup (List.map key c) -> find_node k c' = None)
  /\ (forall k', k' <> k -> find_node k' c' = find_node k' c).
Proof.
  revert c'. induction c as [|m c IH]; intros c'; cbn [unlink].
  - discriminate.
  - destruct (String.eqb_spec (key m) k) as [e|ne].
    + intros [= <-]. conj.
      * intros n i. now right.
      * cbn [List.map]. now inversion 1.
      * cbn [List.map]. inversion 1; subst. now apply find_node_None.
      * intros k' nk. cbn [find_node].
        destruct (String.eqb_spec (key m) k'); [congruence | reflexivity].
    + destruct (unlink k c) as [c2|]; [|discriminate].
      intros [= <-]. destruct (IH c2 eq_refl) as (i & nd & fn & fo). conj.
      * intros n [->|i2]; [now left | right; auto].
      * cbn [List.map]. inversion 1 as [|x y ni nd']; subst.
        constructor; [|auto]. intros i2. apply ni.
        apply in_map_iff in i2 as (n & e & i2). rewrite <- e.
        apply in_map. auto.
      * cbn [List.map find_node]. inversion 1; subst.
        destruct (String.eqb_spec (key m) k); [contradiction | auto].
      * intros k' nk. cbn [find_node]. rewrite (fo k' nk). reflexivity.
Qed.

Lemma unlink_ok k h c c' :
  unlink k c = Some c' -> bucket_ok (h, c) -> bucket_ok (h, c').
Proof.
  intros u [bh bn]. destruct (unlink_Some _ _ _ u) as (i & nd & _).
  cbn [fst snd] in *. split; cbn [fst snd]; [|auto].
  rewrite Forall_forall in *. auto.
Qed.

Lemma update_unfold k v s :
  update false k v s
  = match dict_getitem (cache s) (hash_func k) with
    | None => (Raise (KeyError (hash_func k)), s)
    | Some cur_node =>
        match set_value k v cur_node with
        | Some (n, cur_node') =>
            (Ok n, set_cache (dict_setitem (cache s) (hash_func k) cur_node') s)
        | None => (Raise (KeyNotFoundError k), s)
        end
    end.
Proof. reflexivity. Qed.

Lemma delete_unfold k s :
  delete false k s
  = match dict_getitem (cache s) (hash_func k) with
    | None => (Raise (KeyError (hash_func k)), s)
    | Some cur_node =>
        match unlink k cur_node with
        | Some cur_node' =>
            (Ok tt, set_cache (dict_setitem (cache s) (hash_func k) cur_node') s)
        | None => (Raise (KeyNotFoundError k), s)
        end
    end.
Proof. reflexivity. Qed.

(** Writing a bucket that exists keeps the digests and their number. *)
Lemma setitem_present_digests s h c c' :
  dict_getitem (cache s) h = Some c ->
  digests (set_cache (dict_setitem (cache s) h c') s) = digests s
  /\ size (set_cache (dict_setitem (cache s) h c') s) = size s.
Proof.
  intros g.
  assert (dict_contains (cache s) h = true) as ct
    by now rewrite dict_contains_getitem, g.
  unfold digests, size. cbn [cache set_cache].
  now rewrite fst_setitem, length_setitem, ct.
Qed.

Lemma setitem_present_Inv s h c c' :
  Inv s -> dict_getitem (cache s) h = Some c -> bucket_ok (h, c') ->
  Inv (set_cache (dict_setitem (cache s) h c') s).
Proof.
  intros [nd F] g b. split.
  - now rewrite (proj1 (setitem_present_digests s h c c' g)).
  - cbn [cache set_cache]. now apply Forall_setitem.
Qed.

Lemma Inv_bucket s h c : Inv s -> dict_getitem (cache s) h = Some c -> bucket_ok (h, c).
Proof.
  intros [_ F] g. rewrite Forall_forall in F. apply F. now apply getitem_In.
Qed.

Lemma update_state k v s :
  let s' := snd (update false k v s) in
  (Inv s -> Inv s') /\ size s' = size s /\ capacity s' = capacity s
  /\ lock_held s' = lock_held s.
Proof.
  rewrite update_unfold.
  destruct (dict_getitem (cache s) (hash_func k)) as [c|] eqn:g; cbn; auto.
  destruct (set_value k v c) as [[n c']|] eqn:sv; cbn; auto.
  destruct (set_value_Some _ _ _ _ _ sv) as (_ & sb & _).
  conj; auto.
  - intros I. eapply setitem_present_Inv; eauto.
    eapply chain_same_but_ok; eauto using Inv_bucket.
  - apply (setitem_present_digests s _ c c' g).
Qed.

Lemma delete_state k s :
  let s' := snd (delete false k s) in
  (Inv s -> Inv s') /\ size s' = size s /\ capacity s' = capacity s
  /\ lock_held s' = lock_held s.
Proof.
  rewrite delete_unfold.
  destruct (dict_getitem (cache s) (hash_func k)) as [c|] eqn:g; cbn; auto.
  destruct (unlink k c) as [c'|] eqn:ul; cbn; auto.
  conj; auto.
  - intros I. eapply setitem_present_Inv; eauto.
    eapply unlink_ok; eauto using Inv_bucket.
  - apply (setitem_present_digests s _ c c' g).
Qed.

End UpdateDelete.

(** ** The tables a client can reach *)

Section Reachable.

Variable V : Type.
Implicit Types (s u : DataStore V) (k : string) (v : V).

Lemma place_state k v s :
  let s' := snd (place k v s) in
  (Inv s -> Inv s')
  /\ lock_held s' = lock_held s
  /\ capacity s' = capacity s
  /\ size s <= size s' <= size s + 1.
Proof.
  destruct (place_returns_or_raises _ k v s) as [(n & s' & e)|(x & s' & e)];
    rewrite e; cbn [snd].
  - destruct (place_Ok _ _ _ _ _ _ e) as (_ & cap & lk & _ & _ & sz & _ & I & _).
    conj; auto; rewrite sz; destruct (contains (hash_func k) s); lia.
  - destruct (place_Raise _ _ _ _ _ _ e) as [-> _]. conj; auto; lia.
Qed.

Lemma insert_state f k v s :
  Inv s ->
  let s' := snd (insert_ false (S (S f)) k v s) in
  Inv s'
  /\ lock_held s' = lock_held s
  /\ (0 < capacity s -> size s <= capacity s ->
      0 < capacity s' /\ size s' <= capacity s').
Proof.
  intros I.
  destruct (Z.eq_dec (size s) (capacity s)) as [full|nf].
  - destruct (Z_lt_le_dec 0 (capacity s)) as [pos|le].
    + destruct (insert_full _ f k v s I full pos)
        as (u & -> & _ & Iu & _ & lt & cap & lk & _).
      destruct (place_state k v u) as (I' & lk' & cap' & sz).
      pose proof (ceil_1_5_grows _ pos).
      cbv zeta. conj; auto; try congruence. intros _ _. lia.
    + rewrite insert_bad_capacity by assumption. cbn. auto.
  - rewrite insert_no_growth by assumption.
    destruct (place_state k v s) as (I' & lk' & cap' & sz).
    cbv zeta. conj; auto. intros p le. lia.
Qed.

Lemma resize_state f (n : Z) s :
  Inv s ->
  let s' := snd (resize_with (insert_ false (S (S f))) n s) in
  Inv s'
  /\ lock_held s' = lock_held s
  /\ (0 < capacity s -> size s <= capacity s ->
      0 < capacity s' /\ size s' <= capacity s').
Proof.
  intros I. destruct (Z_lt_le_dec 0 n) as [pos|le].
  - destruct (resize_Inv _ f n s I pos) as (u & -> & (Iu & _ & pu & su) & _ & lk & _).
    cbn. auto.
  - rewrite resize_bad_capacity by assumption. cbn. auto.
Qed.

Lemma exec_state (o : op V) s :
  Inv s ->
  Inv (exec o s)
  /\ lock_held (exec o s) = lock_held s
  /\ (0 < capacity s -> size s <= capacity s ->
      0 < capacity (exec o s) /\ size (exec o s) <= capacity (exec o s)).
Proof.
  intros I. destruct o as [k v|k v|k|k|n|]; cbn [exec].
  - apply (insert_state 1 k v s I).
  - destruct (update_state _ k v s) as (I' & sz & cap & lk).
    cbv zeta in *. rewrite sz, cap. auto.
  - destruct (delete_state _ k s) as (I' & sz & cap & lk).
    cbv zeta in *. rewrite sz, cap. auto.
  - rewrite search_lookup. cbn. auto.
  - apply (resize_state 1 n s I).
  - cbn. auto.
Qed.

(** Every table a client can reach is well formed, and its lock is free. *)
Lemma reachable_Inv s : reachable s -> Inv s /\ lock_held s = false.
Proof.
  intros [c r]. induction r as [|o s r [I l]].
  - split; [apply Inv_init | reflexivity].
  - destruct (exec_state o s I) as (I' & l' & _). split; congruence.
Qed.

(** From a capacity above 0 on, the capacity stays above 0 and the number
    of buckets stays within it. *)
Lemma reachable_capacity (c : Z) s :
  0 < c -> reachable_from c s -> 0 < capacity s /\ size s <= capacity s.
Proof.
  intros pos r. induction r as [|o s r [p le]].
  - cbn. unfold size. cbn. lia.
  - assert (I : Inv s) by (apply reachable_Inv; now exists c).
    now apply (exec_state o s I).
Qed.

End Reachable.

(** ** The operations on a table *)

Section Operations.

Variable V : Type.
Implicit Types (s u : DataStore V) (k : string) (v : V).

Lemma ceil_1_5_spec (c : Z) : 3 * c <= 2 * ceil_1_5 c < 3 * c + 2.
Proof.
  unfold ceil_1_5.
  pose proof (Z.div_mod (3 * c + 1) 2 ltac:(lia)).
  pose proof (Z.mod_pos_bound (3 * c + 1) 2 ltac:(lia)). lia.
Qed.

(** A call of [insert] that returns has placed its node, in the table as
    it was or as the growth step left it. *)
Lemma insert_Ok_place f k v s (n : Node V) s' :
  insert_ false (S f) k v s = (Ok n, s') ->
  exists b, place k v b = (Ok n, s') /\ (size s <> capacity s -> b = s).
Proof.
  rewrite insert_unfold.
  destruct (Z.eqb_spec (size s) (capacity s)) as [e|ne].
  - destruct (resize_with (insert_ false f) (ceil_1_5 (capacity s)) s)
      as [[[]|x| |] s1]; try discriminate.
    intros p. exists s1. split; [exact p | contradiction].
  - intros p. exists s. auto.
Qed.

Lemma contains_size k s : contains k s = true -> 1 <= size s.
Proof.
  unfold contains, size. destruct (cache s); cbn [dict_contains List.length].
  - discriminate.
  - lia.
Qed.

(** [resize] to a capacity of 0 or less raises and changes nothing. *)
Lemma resize_nonpositive (n : Z) s :
  n <= 0 -> resize false n s = (Raise InvalidCapacityError, s).
Proof. apply resize_bad_capacity. Qed.

(** [insert] where the bucket of the key holds [None], in a table that is
    not full: reading [cur_node.key] raises. *)
Lemma insert_emptied_bucket k v s :
  dict_getitem (cache s) (hash_func k) = Some [] ->
  size s <> capacity s ->
  insert false k v s = (Raise AttributeError, s).
Proof.
  intros g ne. unfold insert, depth. rewrite insert_no_growth by exact ne.
  unfold place. now rewrite g.
Qed.

(** With threads, a call made while the lock is held blocks. *)
Lemma locked_blocks k v s :
  lock_held s = true ->
  insert true k v s = (Deadlock, s)
  /\ update true k v s = (Deadlock, s)
  /\ delete true k s = (Deadlock, s)
  /\ search true k s = (Deadlock, s)
  /\ iterate true s = (Deadlock, s).
Proof.
  intros l. unfold insert, depth, update, delete, search, iterate.
  cbn [insert_ with_lock]. now rewrite l.
Qed.

(** With threads, [insert] into a full table that holds a node never
    returns: [resize] calls [insert], which waits for the lock its caller
    holds. *)
Lemma insert_full_deadlocks k v s :
  lock_held s = false -> size s = capacity s -> 0 < capacity s ->
  all_nodes s <> [] ->
  fst (insert true k v s) = Deadlock.
Proof.
  intros l full pos ne. unfold insert, depth.
  change (insert_ true 3 k v s)
    with (with_lock true (insert_body (resize_with (insert_ true 2)) k v) s).
  cbn [with_lock]. rewrite l, insert_body_place.
  change (size (set_lock true s)) with (size s).
  change (capacity (set_lock true s)) with (capacity s).
  destruct (Z.eqb_spec (size s) (capacity s)); [|contradiction].
  rewrite resize_unfold by now apply Z.lt_trans with (capacity s), ceil_1_5_grows.
  rewrite while_node_locked by reflexivity.
  change (all_nodes (set_lock true s)) with (all_nodes s).
  now destruct (all_nodes s).
Qed.

Lemma nodes_in_populated s :
  Inv s ->
  Forall (fun m => In (hash_func (key m))
            (List.map fst (List.filter
               (fun b : string * list (Node V) =>
                  match snd b with [] => false | _ => true end) (cache s))))
         (all_nodes s).
Proof.
  intros [_ F]. unfold all_nodes.
  induction F as [|[h c] d [bh _] F IH]; cbn [List.map List.concat List.filter fst snd] in *.
  - constructor.
  - apply Forall_app. split.
    + destruct c as [|m c]; [constructor|]. cbn [List.map fst].
      eapply Forall_impl; [|exact bh]. cbn. intros x e. now left.
    + destruct c as [|m c]; [exact IH|]. cbn [List.map fst].
      eapply Forall_impl; [|exact IH]. cbn. intros x i. now right.
Qed.

(** [insert] of a key that is not in the table returns, and [search]
    then finds the node, unless the bucket of the key holds [None] in a
    table that is not full. *)
Lemma insert_fresh k v s :
  Inv s -> 0 < capacity s -> lookup k s = None ->
  size s = capacity s \/ dict_getitem (cache s) (hash_func k) <> Some [] ->
  exists s',
    insert false k v s = (Ok (mkNode k v), s')
    /\ search false k s' = (Ok (Some (mkNode k v)), s').
Proof.
  intros I pos fr side. unfold insert, depth.
  assert (exists b s', insert_ false 3 k v s = place k v b
                       /\ place k v b = (Ok (mkNode k v), s'))
    as (b & s' & -> & p).
  { destruct (Z.eq_dec (size s) (capacity s)) as [full|nf].
    - destruct (insert_full _ 1 k v s I full pos)
        as (u & e & _ & _ & du & _ & _ & _ & lub).
      destruct (place_fresh _ k v u du) as [s' p]; [now rewrite lub|].
      exists u, s'. auto.
    - destruct side as [full|ne]; [contradiction|].
      exists s. rewrite insert_no_growth by exact nf.
      unfold place. unfold lookup in fr.
      destruct (dict_getitem (cache s) (hash_func k)) as [[|m next]|]; eauto.
      + contradiction.
      + rewrite has_key_find, fr. eauto. }
  exists s'. split; [exact p|].
  apply place_Ok in p as (_ & _ & _ & _ & lu & _).
  now rewrite search_lookup, lu, String.eqb_refl.
Qed.

(** Where the bucket of [k] exists and no node in it has the key, [update]
    and [delete] raise the key-not-found error and change nothing. *)
Lemma update_delete_missing_in_chain k v s (c : list (Node V)) :
  dict_getitem (cache s) (hash_func k) = Some c ->
  find_node k c = None ->
  update false k v s = (Raise (KeyNotFoundError k), s)
  /\ delete false k s = (Raise (KeyNotFoundError k), s).
Proof.
  intros g f. rewrite update_unfold, delete_unfold, g.
  now rewrite (proj2 (set_value_None _ k v c) f), (proj2 (unlink_None _ k c) f).
Qed.

(** After [update k v], [search k] returns the node with the new value. *)
Lemma update_then_search k v s (n : Node V) s' :
  update false k v s = (Ok n, s') ->
  n = mkNode k v /\ search false k s' = (Ok (Some (mkNode k v)), s').
Proof.
  rewrite update_unfold.
  destruct (dict_getitem (cache s) (hash_func k)) as [c|] eqn:g; [|discriminate].
  destruct (set_value k v c) as [[m c']|] eqn:sv; [|discriminate].
  intros [= <- <-].
  destruct (set_value_Some _ _ _ _ _ _ sv) as (-> & _ & f & _).
  split; [reflexivity|].
  rewrite search_lookup. unfold lookup. cbn [cache set_cache].
  now rewrite getitem_setitem_same, f.
Qed.

(** After [delete k], [search k] returns nothing and a second [delete k]
    raises the key-not-found error. *)
Lemma delete_then_search k s s' :
  Inv s ->
  delete false k s = (Ok tt, s') ->
  search false k s' = (Ok None, s')
  /\ delete false k s' = (Raise (KeyNotFoundError k), s').
Proof.
  intros I. rewrite delete_unfold.
  destruct (dict_getitem (cache s) (hash_func k)) as [c|] eqn:g; [|discriminate].
  destruct (unlink k c) as [c'|] eqn:ul; [|discriminate].
  intros [= <-].
  destruct (unlink_Some _ _ _ _ ul) as (_ & _ & fn & _).
  destruct (Inv_bucket _ s _ c I g) as [_ nd]. cbn [snd] in nd.
  specialize (fn nd).
  assert (gs : dict_getitem
                 (cache (set_cache (dict_setitem (cache s) (hash_func k) c') s))
                 (hash_func k) = Some c')
    by (cbn [cache set_cache]; apply getitem_setitem_same).
  split.
  - rewrite search_lookup. unfold lookup. now rewrite gs, fn.
  - rewrite delete_unfold, gs. now rewrite (proj2 (unlink_None _ k c') fn).
Qed.

End Operations.

(** ** The properties of the specification *)

Section Properties.

Variable V : Type.
Implicit Types (s u : DataStore V) (k : string) (v : V).

(** C1, as the code has it: [contains x] is true exactly when the table
    has a bucket stored under [x] itself, with no digest taken of it; and
    after an [insert] of [k] that returns, [contains] is true of the
    digest of [k]. *)
Theorem contains_tests_its_argument (x : string) s :
  (contains x s = true <-> exists c, dict_getitem (cache s) x = Some c)
  /\ forall k v n s',
       insert false k v s = (Ok n, s') -> contains (hash_func k) s' = true.
Proof.
  split; [apply contains_bucket|].
  intros k v n s' i. unfold insert, depth in i.
  apply insert_Ok_place in i as (b & p & _).
  now apply place_Ok in p.
Qed.

(** C3, as the code has it: where the digest of [k] has no bucket,
    [update] and [delete] end in the [KeyError] of the dict subscript,
    which is not the [RuntimeError] they raise for a key that is not in
    its chain. The table is left as it was. *)
Theorem update_delete_missing_bucket k v s :
  dict_getitem (cache s) (hash_func k) = None ->
  update false k v s = (Raise (KeyError (hash_func k)), s)
  /\ delete false k s = (Raise (KeyError (hash_func k)), s)
  /\ KeyError (hash_func k) <> KeyNotFoundError k.
Proof.
  intros g. rewrite update_unfold, delete_unfold, g.
  conj; try reflexivity. discriminate.
Qed.

(** C4, amended: in a reachable table, after [insert k v1] has returned, a
    second [insert k v2] raises the duplicate-key error; every key then
    leads to the node it led to; the table is the same if it was not full
    at the second call, and has been rebuilt at capacity
    ceil(1.5 * capacity) if it was. *)
Theorem insert_twice k v1 v2 s (n : Node V) s1 :
  reachable s ->
  insert false k v1 s = (Ok n, s1) ->
  exists s2,
    insert false k v2 s1 = (Raise (DuplicateKeyError k), s2)
    /\ (forall k', search false k' s2 = (fst (search false k' s1), s2))
    /\ (size s1 <> capacity s1 -> s2 = s1)
    /\ (size s1 = capacity s1 -> capacity s2 = ceil_1_5 (capacity s1)).
Proof.
  intros r i.
  assert (I1 : Inv s1).
  { destruct r as [c r].
    apply (reachable_Inv _ s1). exists c.
    replace s1 with (exec (OpInsert k v1) s)
      by (cbn [exec]; now rewrite i).
    now constructor. }
  unfold insert, depth in *.
  apply insert_Ok_place in i as (b & p & _).
  apply place_Ok in p as (_ & _ & _ & _ & lu & _ & ct & _).
  pose proof (lu k) as lk. rewrite String.eqb_refl in lk.
  destruct (Z.eq_dec (size s1) (capacity s1)) as [full|nf].
  - assert (pos : 0 < capacity s1) by (apply contains_size in ct; lia).
    destruct (insert_full _ 1 k v2 s1 I1 full pos)
      as (u & -> & _ & _ & _ & _ & cap & _ & lub).
    exists u. rewrite (place_duplicate _ k v2 u (mkNode k v1)) by now rewrite lub.
    conj; auto; [|contradiction].
    intros k'. now rewrite !search_lookup, lub.
  - exists s1. rewrite insert_no_growth by exact nf.
    rewrite (place_duplicate _ k v2 s1 _ lk).
    conj; auto; [|contradiction].
    intros k'. now rewrite !search_lookup.
Qed.

(** C5, amended: where [k] is the only node of its bucket, [delete k]
    returns and leaves the bucket in the table, holding [None]: the digest
    of [k] is still a key of the dict, the size and the capacity are what
    they were, and [search k] finds nothing. *)
Theorem delete_sole_node k (n : Node V) s :
  dict_getitem (cache s) (hash_func k) = Some [n] ->
  key n = k ->
  exists s',
    delete false k s = (Ok tt, s')
    /\ dict_getitem (cache s') (hash_func k) = Some []
    /\ contains (hash_func k) s' = true
    /\ size s' = size s
    /\ capacity s' = capacity s
    /\ search false k s' = (Ok None, s').
Proof.
  intros g e. rewrite delete_unfold, g. cbn [unlink]. rewrite e, String.eqb_refl.
  eexists. split; [reflexivity|].
  assert (gs : dict_getitem
                 (cache (set_cache (dict_setitem (cache s) (hash_func k) []) s))
                 (hash_func k) = Some [])
    by (cbn [cache set_cache]; apply getitem_setitem_same).
  conj; auto.
  - unfold contains. now rewrite dict_contains_getitem, gs.
  - apply (setitem_present_digests _ s _ _ [] g).
  - rewrite search_lookup. unfold lookup. now rewrite gs.
Qed.

(** C10: an [update] of [k] that returns leaves the digests, the order of
    the buckets, the keys of every chain and every node under another key
    as they were, and the capacity and the size with them; [search] of
    any other key gives what it gave. *)
Theorem update_frame k v s (n : Node V) s' :
  update false k v s = (Ok n, s') ->
  dict_same_but k (cache s) (cache s')
  /\ capacity s' = capacity s
  /\ size s' = size s
  /\ forall k', k' <> k -> search false k' s' = (fst (search false k' s), s').
Proof.
  rewrite update_unfold.
  destruct (dict_getitem (cache s) (hash_func k)) as [c|] eqn:g; [|discriminate].
  destruct (set_value k v c) as [[m c']|] eqn:sv; [|discriminate].
  intros [= <- <-].
  destruct (set_value_Some _ _ _ _ _ _ sv) as (_ & sb & _).
  conj; auto.
  - cbn [cache set_cache]. apply setitem_Forall2 with (c := c); auto.
    intros [h x]. split; [reflexivity|]. cbn [snd].
    clear. induction x; constructor; auto.
  - apply (setitem_present_digests _ s _ c c' g).
  - intros k' ne. rewrite !search_lookup. cbn [fst]. do 2 f_equal.
    unfold lookup. cbn [cache set_cache].
    destruct (String.eqb_spec (hash_func k) (hash_func k')) as [e|nh].
    + rewrite <- e, getitem_setitem_same, g. now apply chain_same_but_find with k.
    + now rewrite getitem_setitem_other.
Qed.

(** C6, amended: in a reachable table, [resize n] with [n] above 0
    returns, and [search] of every key gives what it gave before; the
    capacity afterwards is [n] or more: it is [n] when fewer than [n]
    buckets held a node, and can be larger otherwise, as the insertions of
    the rehash grow the table again. *)
Theorem resize_preserves (n : Z) s :
  reachable s -> 0 < n ->
  exists s',
    resize false n s = (Ok tt, s')
    /\ (forall k, search false k s' = (fst (search false k s), s'))
    /\ n <= capacity s'
    /\ (populated s < n -> capacity s' = n).
Proof.
  intros r pos. destruct (reachable_Inv _ s r) as [I _].
  unfold resize, depth.
  destruct (resize_Inv _ 1 n s I pos) as (u & e & _ & le & _ & lu).
  exists u. conj; auto.
  - intros k. now rewrite !search_lookup, lu.
  - intros lt.
    destruct (resize_no_growth _ 2 _ n s I pos (nodes_in_populated _ s I))
      as (u2 & e2 & _ & _ & _ & cap & _).
    + unfold populated in lt. now rewrite length_map.
    + rewrite e in e2. now injection e2 as ->.
Qed.

(** C7: in a reachable table whose size is its capacity C, an [insert]
    that returns has first resized the table to ceil(1.5 * C) and then
    placed the node: the capacity afterwards is ceil(1.5 * C), that is the
    one integer C' with 3 * C <= 2 * C' < 3 * C + 2; [search] finds the
    new node, and every other key gives what it gave. *)
Theorem insert_grows_full_table k v s (n : Node V) s' :
  reachable s ->
  size s = capacity s ->
  insert false k v s = (Ok n, s') ->
  capacity s' = ceil_1_5 (capacity s)
  /\ 3 * capacity s <= 2 * capacity s' < 3 * capacity s + 2
  /\ (exists u,
        resize false (ceil_1_5 (capacity s)) s = (Ok tt, u)
        /\ place k v u = (Ok n, s'))
  /\ search false k s' = (Ok (Some (mkNode k v)), s')
  /\ forall k', k' <> k -> search false k' s' = (fst (search false k' s), s').
Proof.
  intros r full i. destruct (reachable_Inv _ s r) as [I _].
  unfold insert, depth in i.
  destruct (Z_lt_le_dec 0 (capacity s)) as [pos|le];
    [|rewrite insert_bad_capacity in i by assumption; discriminate].
  destruct (insert_full _ 1 k v s I full pos)
    as (u & e & rs & _ & _ & _ & cap & _ & lub).
  rewrite e in i.
  destruct (place_Ok _ _ _ _ _ _ i) as (_ & cap' & _ & _ & lu & _).
  conj.
  - congruence.
  - rewrite cap', cap. apply ceil_1_5_spec.
  - rewrite cap', cap. apply ceil_1_5_spec.
  - exists u. split; [|exact i]. unfold resize, depth.
    apply resize_with_ext with (ins1 := insert_ false 2); [|exact rs | discriminate].
    intros k0 v0 s0 r0 s0'. apply insert_fuel_mono.
  - rewrite search_lookup, lu. now rewrite String.eqb_refl.
  - intros k' ne. rewrite !search_lookup, lu, lub.
    now destruct (String.eqb_spec k' k).
Qed.

(** C8: a table constructed with a capacity above 0, as the default 10
    is, has a capacity above 0 after every sequence of calls, however each
    call ends; and at every such table [resize n] with [n] at most 0
    raises the invalid-capacity error and leaves the table, its capacity
    included, as it was. *)
Theorem capacity_always_positive (c : Z) s :
  0 < c ->
  reachable_from c s ->
  0 < capacity s
  /\ (forall n : Z,
        n <= 0 ->
        resize false n s = (Raise InvalidCapacityError, s)
        /\ capacity (exec (OpResize n) s) = capacity s)
  /\ 0 < default_capacity.
Proof.
  intros pos r. conj.
  - now apply (reachable_capacity _ c s pos r).
  - intros n le. split.
    + now apply resize_nonpositive.
    + cbn [exec]. now rewrite resize_nonpositive.
  - reflexivity.
Qed.

End Properties.

(** ** The properties on the test scenarios *)

Lemma reachable_init (c : Z) : reachable (@init Z c).
Proof. exists c. constructor. Defined.

Lemma reachable_exec (o : op Z) (s : DataStore Z) : reachable s -> reachable (exec o s).
Proof. intros [c r]. exists c. now constructor. Defined.

(** C1 fails as stated: after insert("a", 1) has returned, the table has
    a bucket under the digest of "a", and contains("a") is false. *)
Lemma contains_raw_key_counterexample :
  insert false "a" 1 (init 10) = (Ok (mkNode "a" 1), table_a)
  /\ dict_getitem (cache table_a) (hash_func "a") = Some [mkNode "a" 1]
  /\ contains "a" table_a = false.
Proof. vm_compute. auto. Qed.

Lemma contains_tests_its_argument_witness :
  insert false "a" 1 (init 10) = (Ok (mkNode "a" 1), table_a)
  /\ contains (hash_func "a") table_a = true.
Proof.
  assert (i : insert false "a" 1 (init 10) = (Ok (mkNode "a" 1), table_a))
    by (vm_compute; reflexivity).
  split; [exact i|].
  exact (proj2 (contains_tests_its_argument Z "a" (init 10)) "a" 1 _ _ i).
Defined.

(** C2 fails on the code: after insert("x", 10) and delete("x") the
    bucket of "x" holds [None], no node has the key "x", and
    insert("x", 20) raises [AttributeError] and inserts nothing. *)
Theorem insert_after_delete_raises :
  reachable table_x_deleted
  /\ delete false "x" table_x = (Ok tt, table_x_deleted)
  /\ dict_getitem (cache table_x_deleted) (hash_func "x") = Some []
  /\ search false "x" table_x_deleted = (Ok None, table_x_deleted)
  /\ insert false "x" 20 table_x_deleted = (Raise AttributeError, table_x_deleted).
Proof.
  split; [do 2 apply reachable_exec; apply reachable_init|].
  vm_compute. auto.
Qed.

Lemma update_delete_missing_bucket_witness :
  dict_getitem (cache (@init Z 10)) (hash_func "a") = None
  /\ update false "a" 1 (init 10) = (Raise (KeyError (hash_func "a")), init 10)
  /\ delete false "a" (@init Z 10) = (Raise (KeyError (hash_func "a")), init 10)
  /\ KeyError (hash_func "a") <> KeyNotFoundError "a".
Proof.
  split; [reflexivity|].
  exact (update_delete_missing_bucket Z "a" 1 (init 10) eq_refl).
Defined.

(** C4 fails as stated: in DataStore(1) after insert("a", 1) the table is
    full; insert("a", 2) raises the duplicate-key error after it has
    resized the table, whose capacity is 2 and no longer 1. *)
Lemma insert_twice_counterexample :
  insert false "a" 1 (init 1) = (Ok (mkNode "a" 1), table_full_1)
  /\ fst (insert false "a" 2 table_full_1) = Raise (DuplicateKeyError "a")
  /\ capacity table_full_1 = 1
  /\ capacity (snd (insert false "a" 2 table_full_1)) = 2
  /\ snd (insert false "a" 2 table_full_1) <> table_full_1.
Proof. vm_compute. conj; auto. discriminate. Qed.

Lemma insert_twice_witness :
  reachable (@init Z 10)
  /\ insert false "a" 1 (init 10) = (Ok (mkNode "a" 1), table_a)
  /\ exists s2,
       insert false "a" 2 table_a = (Raise (DuplicateKeyError "a"), s2)
       /\ (forall k', search false k' s2 = (fst (search false k' table_a), s2))
       /\ (size table_a <> capacity table_a -> s2 = table_a)
       /\ (size table_a = capacity table_a -> capacity s2 = ceil_1_5 (capacity table_a)).
Proof.
  assert (i : insert false "a" 1 (init 10) = (Ok (mkNode "a" 1), table_a))
    by (vm_compute; reflexivity).
  split; [apply reachable_init|]. split; [exact i|].
  exact (insert_twice Z "a" 1 2 (init 10) _ _ (reachable_init 10) i).
Defined.

(** C5 fails as stated: "x" is the only node of its bucket; after
    delete("x") the bucket is still in the table and the size is still 1. *)
Lemma delete_sole_node_counterexample :
  dict_getitem (cache table_x) (hash_func "x") = Some [mkNode "x" 10]
  /\ delete false "x" table_x = (Ok tt, table_x_deleted)
  /\ contains (hash_func "x") table_x_deleted = true
  /\ size table_x = 1
  /\ size table_x_deleted = 1.
Proof. vm_compute. auto. Qed.

Lemma delete_sole_node_witness :
  dict_getitem (cache table_x) (hash_func "x") = Some [mkNode "x" 10]
  /\ key (mkNode "x" 10) = "x"
  /\ exists s',
       delete false "x" table_x = (Ok tt, s')
       /\ dict_getitem (cache s') (hash_func "x") = Some []
       /\ contains (hash_func "x") s' = true
       /\ size s' = size table_x
       /\ capacity s' = capacity table_x
       /\ search false "x" s' = (Ok None, s').
Proof.
  assert (g : dict_getitem (cache table_x) (hash_func "x") = Some [mkNode "x" 10])
    by (vm_compute; reflexivity).
  split; [exact g|]. split; [reflexivity|].
  exact (delete_sole_node Z "x" (mkNode "x" 10) table_x g eq_refl).
Defined.

(** C6 fails as stated: with "a" and "b" in the table, resize(1) returns
    and leaves the capacity at 2. *)
Lemma resize_capacity_counterexample :
  reachable table_ab
  /\ fst (resize false 1 table_ab) = Ok tt
  /\ capacity (snd (resize false 1 table_ab)) = 2.
Proof.
  split; [do 2 apply reachable_exec; apply reachable_init|].
  vm_compute. auto.
Qed.

Lemma resize_preserves_witness :
  reachable table_ab
  /\ 0 < 3
  /\ exists s',
       resize false 3 table_ab = (Ok tt, s')
       /\ (forall k, search false k s' = (fst (search false k table_ab), s'))
       /\ 3 <= capacity s'
       /\ (populated table_ab < 3 -> capacity s' = 3).
Proof.
  assert (r : reachable table_ab)
    by (do 2 apply reachable_exec; apply reachable_init).
  split; [exact r|]. split; [reflexivity|].
  exact (resize_preserves Z 3 table_ab r eq_refl).
Defined.

(** The scenario of C7: capacity 2 with "a" and "b" present; insert("c", 3)
    leaves the capacity at 3 and the three keys in the table. *)
Lemma insert_grows_full_table_witness :
  reachable table_full_2
  /\ size table_full_2 = capacity table_full_2
  /\ capacity table_full_2 = 2
  /\ insert false "c" 3 table_full_2
     = (Ok (mkNode "c" 3), exec (OpInsert "c" 3) table_full_2)
  /\ capacity (exec (OpInsert "c" 3) table_full_2) = ceil_1_5 2
  /\ 3 * 2 <= 2 * capacity (exec (OpInsert "c" 3) table_full_2) < 3 * 2 + 2
  /\ ceil_1_5 2 = 3
  /\ fst (search false "a" (exec (OpInsert "c" 3) table_full_2)) = Ok (Some (mkNode "a" 1))
  /\ fst (search false "b" (exec (OpInsert "c" 3) table_full_2)) = Ok (Some (mkNode "b" 2))
  /\ fst (search false "c" (exec (OpInsert "c" 3) table_full_2)) = Ok (Some (mkNode "c" 3)).
Proof.
  assert (r : reachable table_full_2)
    by (do 2 apply reachable_exec; apply reachable_init).
  assert (f : size table_full_2 = capacity table_full_2) by (vm_compute; reflexivity).
  assert (i : insert false "c" 3 table_full_2
              = (Ok (mkNode "c" 3), exec (OpInsert "c" 3) table_full_2))
    by (vm_compute; reflexivity).
  destruct (insert_grows_full_table Z "c" 3 table_full_2 _ _ r f i)
    as (cap & bound & _ & sc & so).
  split; [exact r|]. split; [exact f|]. split; [reflexivity|]. split; [exact i|].
  split; [exact cap|]. split; [exact bound|]. split; [reflexivity|].
  split; [rewrite (so "a") by discriminate; vm_compute; reflexivity|].
  split; [rewrite (so "b") by discriminate; vm_compute; reflexivity|].
  rewrite sc. reflexivity.
Defined.

(** The condition on the constructor's argument is the caller's: the
    constructor stores any capacity. DataStore(0) has capacity 0, and its
    first [insert] raises the capacity error of [resize]; DataStore(-1)
    keeps capacity -1 however many nodes it holds. *)
Lemma constructor_stores_any_capacity :
  capacity (@init Z 0) = 0
  /\ insert false "a" 1 (init 0) = (Raise InvalidCapacityError, init 0)
  /\ capacity (exec (OpInsert "b" 2) (exec (OpInsert "a" 1) (init (-1)))) = -1.
Proof. vm_compute. auto. Qed.

Lemma capacity_always_positive_witness :
  0 < default_capacity
  /\ reachable_from default_capacity table_ab
  /\ 0 < capacity table_ab
  /\ resize false 0 table_ab = (Raise InvalidCapacityError, table_ab)
  /\ resize false (-1) table_ab = (Raise InvalidCapacityError, table_ab).
Proof.
  assert (pos : 0 < default_capacity) by reflexivity.
  assert (r : reachable_from default_capacity table_ab)
    by (do 2 apply reach_step; apply reach_init).
  destruct (capacity_always_positive Z default_capacity table_ab pos r)
    as (cap & rs & _).
  split; [exact pos|]. split; [exact r|]. split; [exact cap|].
  split; [apply (rs 0); lia | apply (rs (-1)); lia].
Defined.

Lemma update_frame_witness :
  update false "a" 7 table_ab = (Ok (mkNode "a" 7), exec (OpUpdate "a" 7) table_ab)
  /\ "b" <> "a"
  /\ dict_same_but "a" (cache table_ab) (cache (exec (OpUpdate "a" 7) table_ab))
  /\ search false "b" (exec (OpUpdate "a" 7) table_ab)
     = (Ok (Some (mkNode "b" 2)), exec (OpUpdate "a" 7) table_ab).
Proof.
  assert (u : update false "a" 7 table_ab
              = (Ok (mkNode "a" 7), exec (OpUpdate "a" 7) table_ab))
    by (vm_compute; reflexivity).
  assert (ne : "b" <> "a") by discriminate.
  destruct (update_frame Z "a" 7 table_ab _ _ u) as (sb & _ & _ & fr).
  split; [exact u|]. split; [exact ne|]. split; [exact sb|].
  rewrite (fr "b" ne). vm_compute. reflexivity.
Defined.

(** ** The shape of a digest *)

Section DigestShape.

Import Sha256.

Lemma round_length (st : list Z) (kw : Z * Z) :
  List.length (round st kw) = List.length st.
Proof.
  unfold round.
  destruct st as [|a [|b [|c [|d [|e [|f [|g [|h [|i st]]]]]]]]]; reflexivity.
Qed.

Lemma rounds_length (l : list (Z * Z)) :
  forall st, List.length (List.fold_left round l st) = List.length st.
Proof.
  induction l as [|kw l IH]; intros st; cbn [List.fold_left]; [reflexivity|].
  now rewrite IH, round_length.
Qed.

Lemma compress_length (h block : list Z) :
  List.length (compress h block) = List.length h.
Proof.
  unfold compress. rewrite length_map, length_combine, rounds_length.
  apply Nat.min_id.
Qed.

Lemma blocks_length (n : nat) :
  forall h bs, List.length (blocks n h bs) = List.length h.
Proof.
  induction n as [|n IH]; intros h bs; cbn [blocks]; [reflexivity|].
  destruct bs; [reflexivity|]. now rewrite IH, compress_length.
Qed.

Lemma be_bytes_range (n : nat) (x : Z) :
  Forall (fun b => 0 <= b < 256) (be_bytes n x).
Proof.
  induction n as [|n IH]; cbn [be_bytes]; constructor; [|exact IH].
  apply Z.mod_pos_bound. lia.
Qed.

Lemma digest_shape (msg : list Z) :
  List.length (digest msg) = 32%nat /\ Forall (fun b => 0 <= b < 256) (digest msg).
Proof.
  unfold digest.
  pose proof (blocks_length (List.length (pad msg)) H0 (pad msg)) as len.
  destruct (blocks (List.length (pad msg)) H0 (pad msg))
    as [|a [|b [|c [|d [|e [|f [|g [|h [|i st]]]]]]]]]; try discriminate len.
  split; [reflexivity|].
  cbn [List.map List.concat]. repeat (apply Forall_app; split);
    try apply be_bytes_range. constructor.
Qed.

Lemma hex_digit_range (x : Z) :
  0 <= x < 16 ->
  In (hex_digit x) (list_ascii_of_string "0123456789abcdef").
Proof.
  intros r.
  assert (x = 0 \/ x = 1 \/ x = 2 \/ x = 3 \/ x = 4 \/ x = 5 \/ x = 6 \/ x = 7
          \/ x = 8 \/ x = 9 \/ x = 10 \/ x = 11 \/ x = 12 \/ x = 13 \/ x = 14
          \/ x = 15) as cases by lia.
  repeat (destruct cases as [->|cases]; [vm_compute; tauto|]).
  subst. vm_compute. tauto.
Qed.

Lemma hex_shape (bs : list Z) :
  Forall (fun b => 0 <= b < 256) bs ->
  String.length (hex bs) = (2 * List.length bs)%nat
  /\ Forall (fun c => In c (list_ascii_of_string "0123456789abcdef"))
            (list_ascii_of_string (hex bs)).
Proof.
  induction 1 as [|b bs r F [IHl IHc]]; cbn [hex String.length list_ascii_of_string].
  - split; [reflexivity | constructor].
  - split; [cbn [List.length]; lia|].
    constructor; [|constructor; [|exact IHc]]; apply hex_digit_range.
    + split; [apply Z.div_pos; lia | apply Z.div_lt_upper_bound; lia].
    + apply Z.mod_pos_bound. lia.
Qed.

(** The digest of any key: 64 characters, all of them lower-case
    hexadecimal digits. *)
Lemma hexdigest_shape (k : string) :
  String.length (hexdigest k) = 64%nat
  /\ Forall (fun c => In c (list_ascii_of_string "0123456789abcdef"))
            (list_ascii_of_string (hexdigest k)).
Proof.
  unfold hexdigest.
  destruct (digest_shape (bytes_of_string k)) as [len range].
  destruct (hex_shape _ range) as [hl hc].
  split; [now rewrite hl, len | exact hc].
Qed.

End DigestShape.

(** ** Further properties of the operations *)

Section Further.

Variable V : Type.
Implicit Types (s u : DataStore V) (k : string) (v : V).

Lemma dense_Inv_hashed s :
  Inv s -> dense s -> Forall (fun d => exists k, d = hash_func k) (digests s).
Proof.
  intros [_ F] d. unfold digests, dense in *.
  induction F as [|[h c] l [bh _] F IH]; cbn [List.map]; [constructor|].
  inversion d as [|x y ne d']; subst. constructor; [|auto].
  cbn [fst snd] in *. destruct c as [|n c]; [contradiction|].
  inversion bh; subst. eauto.
Qed.

Lemma place_hashed k v s :
  Forall (fun d => exists k, d = hash_func k) (digests s) ->
  Forall (fun d => exists k, d = hash_func k) (digests (snd (place k v s))).
Proof.
  intros F.
  destruct (place_returns_or_raises _ k v s) as [(n & s' & e)|(x & s' & e)];
    rewrite e; cbn [snd].
  - destruct (place_Ok _ _ _ _ _ _ e) as (_ & _ & _ & _ & _ & _ & _ & _ & _ & i).
    specialize (i (digests s ++ [hash_func k])).
    rewrite Forall_forall in *. intros d id.
    apply i in id; [| apply incl_appl, incl_refl | apply in_or_app; right; now left].
    apply in_app_or in id as [id|[<-|[]]]; eauto.
  - now destruct (place_Raise _ _ _ _ _ _ e) as [-> _].
Qed.

Lemma exec_hashed (o : op V) s :
  Inv s ->
  Forall (fun d => exists k, d = hash_func k) (digests s) ->
  Forall (fun d => exists k, d = hash_func k) (digests (exec o s)).
Proof.
  intros I F. destruct o as [k v|k v|k|k|n|]; cbn [exec].
  - unfold insert, depth.
    destruct (Z.eq_dec (size s) (capacity s)) as [full|nf].
    + destruct (Z_lt_le_dec 0 (capacity s)) as [pos|le].
      * destruct (insert_full _ 1 k v s I full pos) as (u & -> & _ & Iu & du & _).
        apply place_hashed. now apply dense_Inv_hashed.
      * now rewrite insert_bad_capacity.
    + rewrite insert_no_growth by exact nf. now apply place_hashed.
  - rewrite update_unfold.
    destruct (dict_getitem (cache s) (hash_func k)) as [c|] eqn:g; [|exact F].
    destruct (set_value k v c) as [[m c']|]; [|exact F]. cbn [snd].
    now rewrite (proj1 (setitem_present_digests _ s _ c c' g)).
  - rewrite delete_unfold.
    destruct (dict_getitem (cache s) (hash_func k)) as [c|] eqn:g; [|exact F].
    destruct (unlink k c) as [c'|]; [|exact F]. cbn [snd].
    now rewrite (proj1 (setitem_present_digests _ s _ c c' g)).
  - now rewrite search_lookup.
  - destruct (Z_lt_le_dec 0 n) as [pos|le].
    + unfold resize, depth.
      destruct (resize_Inv _ 1 n s I pos) as (u & -> & (Iu & du & _) & _).
      now apply dense_Inv_hashed.
    + now rewrite resize_nonpositive.
  - exact F.
Qed.

(** Every digest in a reachable table is the digest of some key. *)
Lemma reachable_hashed s :
  reachable s -> Forall (fun d => exists k, d = hash_func k) (digests s).
Proof.
  intros [c r]. induction r as [|o s r IH]; [constructor|].
  apply exec_hashed; [|exact IH]. apply reachable_Inv. now exists c.
Qed.

Lemma place_set_lock (b : bool) k v s :
  place k v (set_lock b s) = (fst (place k v s), set_lock b (snd (place k v s))).
Proof.
  unfold place. cbn [cache set_lock].
  destruct (dict_getitem (cache s) (hash_func k)) as [[|m next]|]; try reflexivity.
  destruct (has_key k (m :: next)); reflexivity.
Qed.

Lemma setitem_absent (d : list (string * list (Node V))) (h : string) c :
  dict_getitem d h = None -> dict_setitem d h c = d ++ [(h, c)].
Proof.
  induction d as [|[h' c'] d IH]; cbn [dict_getitem dict_setitem app]; [reflexivity|].
  destruct (String.eqb h' h); [discriminate|]. intros g. now rewrite IH.
Qed.

Lemma NoDup_populated (d : list (string * list (Node V))) :
  NoDup (List.map fst d) ->
  NoDup (List.map fst (List.filter
    (fun b : string * list (Node V) => match snd b with [] => false | _ => true end) d)).
Proof.
  induction d as [|[h c] d IH]; cbn [List.map List.filter fst snd]; intros nd.
  - constructor.
  - inversion nd as [|x y ni nd']; subst.
    destruct c as [|n c]; [auto|]. cbn [List.map fst]. constructor; [|auto].
    intros i. apply ni. apply in_map_iff in i as ([h' c'] & e & i).
    apply filter_In in i as [i _]. cbn [fst] in e. subst.
    change h with (fst (h, c')). now apply in_map.
Qed.

End Further.

(** ** What the operations guarantee to a client *)

(** X12. A digest is 64 characters long, each a lower-case hexadecimal
    digit, whatever the key. *)
Theorem hash_func_shape (k : string) :
  String.length (hash_func k) = 64%nat
  /\ Forall (fun c => In c (list_ascii_of_string "0123456789abcdef"))
            (list_ascii_of_string (hash_func k)).
Proof. unfold hash_func. apply hexdigest_shape. Qed.

Section Guarantees.

Variable V : Type.
Implicit Types (s u : DataStore V) (k : string) (v : V).

(** X1. After an [update] of [k] that returns, the node returned has the
    key and the new value, and [search k] returns that node. *)
Theorem update_search_round_trip k v s (n : Node V) s' :
  update false k v s = (Ok n, s') ->
  n = mkNode k v /\ search false k s' = (Ok (Some n), s').
Proof.
  intros u. destruct (update_then_search _ k v s n s' u) as [-> f]. auto.
Qed.

(** X2. In a reachable table, after a [delete] of [k] that returns,
    [search k] finds nothing, the bucket of [k] is still in the table, and
    [delete k] and [update k] raise the key-not-found error and change
    nothing. *)
Theorem delete_then_absent k v s s' :
  reachable s ->
  delete false k s = (Ok tt, s') ->
  search false k s' = (Ok None, s')
  /\ contains (hash_func k) s' = true
  /\ delete false k s' = (Raise (KeyNotFoundError k), s')
  /\ update false k v s' = (Raise (KeyNotFoundError k), s').
Proof.
  intros r d. destruct (reachable_Inv _ s r) as [I _].
  destruct (delete_then_search _ k s s' I d) as [f d2].
  rewrite search_lookup in f. injection f as f. unfold lookup in f.
  revert d. rewrite delete_unfold.
  destruct (dict_getitem (cache s) (hash_func k)) as [c|] eqn:g; [|discriminate].
  destruct (unlink k c) as [c'|]; [|discriminate]. intros [= <-].
  assert (gs : dict_getitem
                 (cache (set_cache (dict_setitem (cache s) (hash_func k) c') s))
                 (hash_func k) = Some c')
    by (cbn [cache set_cache]; apply getitem_setitem_same).
  rewrite gs in f. conj.
  - rewrite search_lookup. unfold lookup. now rewrite gs, f.
  - unfold contains. now rewrite dict_contains_getitem, gs.
  - exact d2.
  - now apply (update_delete_missing_in_chain _ k v _ c').
Qed.

(** X3. In a table reached from a capacity above 0: [insert] of a key
    that [search] finds raises the duplicate-key error; [insert] of a key
    that [search] does not find returns the new node, which [search] then
    finds, provided the table is full or the bucket of the key does not
    hold [None]. *)
Theorem insert_outcome (c : Z) k v s :
  0 < c -> reachable_from c s ->
  (forall m, search false k s = (Ok (Some m), s) ->
             fst (insert false k v s) = Raise (DuplicateKeyError k))
  /\ (search false k s = (Ok None, s) ->
      size s = capacity s \/ dict_getitem (cache s) (hash_func k) <> Some [] ->
      exists s',
        insert false k v s = (Ok (mkNode k v), s')
        /\ search false k s' = (Ok (Some (mkNode k v)), s')).
Proof.
  intros pc r.
  assert (I : Inv s) by (apply reachable_Inv; now exists c).
  destruct (reachable_capacity _ c s pc r) as [pos _].
  rewrite search_lookup. split.
  - intros m [= lk]. unfold insert, depth.
    destruct (Z.eq_dec (size s) (capacity s)) as [full|nf].
    + destruct (insert_full _ 1 k v s I full pos) as (u & -> & _ & _ & _ & _ & _ & _ & lub).
      rewrite (place_duplicate _ k v u m); [reflexivity | now rewrite lub].
    + rewrite insert_no_growth by exact nf.
      now rewrite (place_duplicate _ k v s m).
  - intros [= lk] side. now apply insert_fresh.
Qed.

(** X4. From a capacity above 0 on, whatever calls are made and however
    they end, the capacity stays above 0 and the number of buckets never
    exceeds it. *)
Theorem capacity_stays_positive (c : Z) s :
  0 < c -> reachable_from c s -> 0 < capacity s /\ size s <= capacity s.
Proof. apply reachable_capacity. Qed.

(** X5. In every reachable table the digests of the buckets are distinct,
    every node is in the bucket of the digest of its key, no key occurs
    twice in the whole table, [search] finds a key wherever it is, and the
    lock is free. *)
Theorem reachable_well_formed s :
  reachable s ->
  NoDup (digests s)
  /\ (forall d c (n : Node V), In (d, c) (cache s) -> In n c -> hash_func (key n) = d)
  /\ NoDup (List.map key (all_nodes s))
  /\ (forall k, search false k s = (Ok (find_node k (all_nodes s)), s))
  /\ lock_held s = false.
Proof.
  intros r. destruct (reachable_Inv _ s r) as [I l].
  conj; auto.
  - apply I.
  - intros d c n ib inn. destruct I as [_ F].
    rewrite Forall_forall in F. destruct (F _ ib) as [bh _].
    rewrite Forall_forall in bh. now apply bh.
  - now apply Inv_nodes_NoDup.
  - intros k. now rewrite search_lookup, Inv_lookup_nodes.
Qed.

(** X6. In a reachable table, an [insert] of [k] that returns gives the
    node of [k] and [v], which [search k] then returns, and leaves what
    [search] returns for every other key as it was, also when the table
    grew. *)
Theorem insert_frame k v s (n : Node V) s' :
  reachable s ->
  insert false k v s = (Ok n, s') ->
  n = mkNode k v
  /\ search false k s' = (Ok (Some n), s')
  /\ (forall k', k' <> k -> search false k' s' = (fst (search false k' s), s'))
  /\ capacity s <= capacity s'.
Proof.
  intros r i. destruct (reachable_Inv _ s r) as [I _].
  unfold insert, depth in i.
  assert (exists b, place k v b = (Ok n, s')
                    /\ (forall k', lookup k' b = lookup k' s)
                    /\ capacity s <= capacity b) as (b & p & lub & cb).
  { destruct (Z.eq_dec (size s) (capacity s)) as [full|nf].
    - destruct (Z_lt_le_dec 0 (capacity s)) as [pos|le];
        [|rewrite insert_bad_capacity in i by assumption; discriminate].
      destruct (insert_full _ 1 k v s I full pos)
        as (u & e & _ & _ & _ & _ & cap & _ & lub).
      exists u. rewrite <- e. conj; auto.
      pose proof (ceil_1_5_grows _ pos). lia.
    - exists s. rewrite <- (insert_no_growth _ 2 k v s nf). conj; auto. lia. }
  destruct (place_Ok _ _ _ _ _ _ p) as (-> & cap & _ & _ & lu & _).
  conj; auto.
  - now rewrite search_lookup, lu, String.eqb_refl.
  - intros k' ne. rewrite !search_lookup, lu, lub.
    now destruct (String.eqb_spec k' k).
  - lia.
Qed.

(** X7. A [delete] of [k] that returns leaves the digests, the size and
    the capacity as they were (no bucket is ever removed), and what
    [search] returns for every other key. *)
Theorem delete_frame k s s' :
  delete false k s = (Ok tt, s') ->
  digests s' = digests s
  /\ size s' = size s
  /\ capacity s' = capacity s
  /\ forall k', k' <> k -> search false k' s' = (fst (search false k' s), s').
Proof.
  rewrite delete_unfold.
  destruct (dict_getitem (cache s) (hash_func k)) as [c|] eqn:g; [|discriminate].
  destruct (unlink k c) as [c'|] eqn:ul; [|discriminate].
  intros [= <-].
  destruct (unlink_Some _ _ _ _ ul) as (_ & _ & _ & fo).
  destruct (setitem_present_digests _ s _ c c' g) as [dg sz].
  conj; auto.
  intros k' ne. rewrite !search_lookup. cbn [fst]. do 2 f_equal.
  unfold lookup. cbn [cache set_cache].
  destruct (String.eqb_spec (hash_func k) (hash_func k')) as [e|nh].
  - rewrite <- e, getitem_setitem_same, g. now apply fo.
  - now rewrite getitem_setitem_other.
Qed.

(** X8. In a reachable table, [resize n] with [n] above 0 drops the
    buckets that hold [None]: afterwards no bucket is empty and the size is
    the number of buckets that held a node. *)
Theorem resize_prunes_emptied_buckets (n : Z) s :
  reachable s -> 0 < n ->
  exists s',
    resize false n s = (Ok tt, s')
    /\ dense s'
    /\ size s' = populated s.
Proof.
  intros r pos. destruct (reachable_Inv _ s r) as [I _].
  unfold resize, depth.
  destruct (resize_Inv _ 1 n s I pos) as (u & e & (Iu & du & _) & _ & _ & lu).
  exists u. conj; auto.
  rewrite size_digests. unfold populated.
  rewrite <- (length_map fst). f_equal.
  apply Nat.le_antisymm; apply NoDup_incl_length.
  - apply Iu.
  - intros d id. unfold digests in id.
    apply in_map_iff in id as ([d' c] & <- & ib). cbn [fst].
    unfold dense in du. rewrite Forall_forall in du.
    pose proof (du _ ib) as ne. cbn [snd] in ne.
    destruct c as [|m c]; [contradiction|].
    pose proof (Inv_bucket _ u d' (m :: c) Iu
                  (In_getitem _ _ _ _ (proj1 Iu) ib)) as [bh _].
    cbn [fst snd] in bh. inversion bh as [|x y hm _]; subst.
    assert (lk : lookup (key m) u = Some m).
    { unfold lookup. rewrite (In_getitem _ _ _ _ (proj1 Iu) ib).
      cbn [find_node]. now rewrite String.eqb_refl. }
    rewrite lu in lk. unfold lookup in lk.
    destruct (dict_getitem (cache s) (hash_func (key m))) as [c'|] eqn:g;
      [|discriminate].
    apply getitem_In in g.
    apply in_map_iff. exists (hash_func (key m), c'). split; [reflexivity|].
    apply filter_In. split; [exact g|]. cbn [snd].
    destruct c'; [discriminate | reflexivity].
  - apply NoDup_populated, I.
  - intros d id.
    apply in_map_iff in id as ([d' c] & <- & ib). cbn [fst].
    apply filter_In in ib as [ib ne]. cbn [snd] in ne.
    destruct c as [|m c]; [discriminate|].
    pose proof (In_getitem _ _ _ _ (proj1 I) ib) as g.
    pose proof (Inv_bucket _ s d' (m :: c) I g) as [bh _].
    cbn [fst snd] in bh. inversion bh as [|x y hm _]; subst.
    assert (lk : lookup (key m) s = Some m).
    { unfold lookup. rewrite g. cbn [find_node]. now rewrite String.eqb_refl. }
    rewrite <- lu in lk. unfold lookup in lk.
    destruct (dict_getitem (cache u) (hash_func (key m))) as [c'|] eqn:gu;
      [|discriminate].
    apply getitem_In in gu. unfold digests.
    change (hash_func (key m)) with (fst (hash_func (key m), c')).
    now apply in_map.
Qed.

(** X9. The calls of [insert] and [resize] never nest more than three
    [insert]s deep, on any table and with or without threads: from depth 3
    on, the outcome of [insert] and of [resize] is the same at every depth,
    and it is never the exhaustion of the depth. *)
Theorem insert_recursion_depth (is_multithreading : bool) (fuel : nat) k v s :
  (3 <= fuel)%nat ->
  insert_ is_multithreading fuel k v s = insert is_multithreading k v s
  /\ fst (insert is_multithreading k v s) <> OutOfFuel
  /\ forall n : Z,
       resize_with (insert_ is_multithreading fuel) n s = resize is_multithreading n s.
Proof.
  intros le. replace fuel with (depth + (fuel - 3))%nat by (unfold depth; lia).
  conj.
  - apply insert_fuel_enough.
  - apply (insert_depth_total _ is_multithreading 0).
  - intros n. apply resize_fuel_enough.
Qed.

(** X10. With threads, [insert] into a full table that holds a node never
    returns: it holds the lock when it calls [resize], whose first
    [insert] waits for that lock. *)
Theorem insert_deadlocks_when_growing k v s :
  lock_held s = false ->
  size s = capacity s -> 0 < capacity s ->
  all_nodes s <> [] ->
  fst (insert true k v s) = Deadlock.
Proof. apply insert_full_deadlocks. Qed.

(** X11. With threads and the lock free, [update], [delete], [search] and
    [iterate] end as they do without threads and leave the lock free; so
    does [insert] into a table that is not full. *)
Theorem lock_transparent k v s :
  lock_held s = false ->
  update true k v s = update false k v s
  /\ delete true k s = delete false k s
  /\ search true k s = search false k s
  /\ iterate true s = iterate false s
  /\ (size s <> capacity s -> insert true k v s = insert false k v s).
Proof.
  intros l.
  assert (unlock : forall d, set_lock false (set_cache d (set_lock true s)) = set_cache d s).
  { intros d. destruct s. cbn in *. now subst. }
  assert (unlock' : set_lock false (set_lock true s) = s).
  { destruct s. cbn in *. now subst. }
  conj.
  - unfold update. cbn [with_lock]. rewrite l. cbn [cache set_lock].
    destruct (dict_getitem (cache s) (hash_func k)) as [c|]; [|now rewrite unlock'].
    destruct (set_value k v c) as [[m c']|]; [now rewrite unlock | now rewrite unlock'].
  - unfold delete. cbn [with_lock]. rewrite l. cbn [cache set_lock].
    destruct (dict_getitem (cache s) (hash_func k)) as [c|]; [|now rewrite unlock'].
    destruct (unlink k c) as [c'|]; [now rewrite unlock | now rewrite unlock'].
  - unfold search. cbn [with_lock]. rewrite l.
    change (contains (hash_func k) (set_lock true s)) with (contains (hash_func k) s).
    cbn [cache set_lock].
    destruct (contains (hash_func k) s); [|now rewrite unlock'].
    destruct (dict_getitem (cache s) (hash_func k)); now rewrite unlock'.
  - unfold iterate. cbn [with_lock]. rewrite l. cbn [cache set_lock].
    now rewrite unlock'.
  - intros nf. unfold insert, depth. rewrite insert_no_growth by exact nf.
    change (insert_ true 3 k v s)
      with (with_lock true (insert_body (resize_with (insert_ true 2)) k v) s).
    cbn [with_lock]. rewrite l, insert_body_place.
    change (size (set_lock true s)) with (size s).
    change (capacity (set_lock true s)) with (capacity s).
    destruct (Z.eqb_spec (size s) (capacity s)); [contradiction|].
    rewrite place_set_lock.
    destruct (place_state _ k v s) as (_ & lk & _).
    cbv zeta in lk. rewrite l in lk.
    destruct (place_returns_or_raises _ k v s) as [(m & s1 & e)|(x & s1 & e)];
      rewrite e in *; cbn [fst snd] in *;
      destruct s1; cbn in *; now subst.
Qed.

(** X13. In a reachable table, [contains] is false of every string that is
    not 64 characters long: the keys of the dict are digests. *)
Theorem contains_false_on_raw_key (x : string) s :
  reachable s -> String.length x <> 64%nat -> contains x s = false.
Proof.
  intros r ne. destruct (contains x s) eqn:ct; [|reflexivity].
  apply dict_contains_In in ct.
  pose proof (reachable_hashed _ s r) as F. rewrite Forall_forall in F.
  destruct (F x ct) as [k ->].
  destruct (hexdigest_shape k) as [len _]. contradiction.
Qed.

(** X14. In a reachable table, a call that raises has changed nothing:
    [update], [delete] and [resize] leave the table as it was, and so does
    [insert] unless the table was full with a capacity above 0; then the
    table has grown, and [search] returns for every key what it returned. *)
Theorem failed_call_keeps_table s :
  reachable s ->
  (forall k v e s', update false k v s = (Raise e, s') -> s' = s)
  /\ (forall k e s', delete false k s = (Raise e, s') -> s' = s)
  /\ (forall n e s', resize false n s = (Raise e, s') -> s' = s)
  /\ (forall k v e s',
        insert false k v s = (Raise e, s') ->
        (size s <> capacity s \/ capacity s <= 0 -> s' = s)
        /\ forall k', search false k' s' = (fst (search false k' s), s')).
Proof.
  intros r. destruct (reachable_Inv _ s r) as [I _]. conj.
  - intros k v e s'. rewrite update_unfold.
    destruct (dict_getitem (cache s) (hash_func k)) as [c|]; [|now intros [= _ <-]].
    destruct (set_value k v c) as [[m c']|]; [discriminate | now intros [= _ <-]].
  - intros k e s'. rewrite delete_unfold.
    destruct (dict_getitem (cache s) (hash_func k)) as [c|]; [|now intros [= _ <-]].
    destruct (unlink k c) as [c'|]; [discriminate | now intros [= _ <-]].
  - intros n e s' rs. destruct (Z_lt_le_dec 0 n) as [pos|le].
    + unfold resize, depth in rs.
      destruct (resize_Inv _ 1 n s I pos) as (u & eu & _). congruence.
    + rewrite resize_nonpositive in rs by exact le. now injection rs as _ <-.
  - intros k v e s' i. unfold insert, depth in i.
    destruct (Z.eq_dec (size s) (capacity s)) as [full|nf].
    + destruct (Z_lt_le_dec 0 (capacity s)) as [pos|le].
      * destruct (insert_full _ 1 k v s I full pos)
          as (u & eu & _ & _ & _ & _ & _ & _ & lub).
        rewrite eu in i. destruct (place_Raise _ _ _ _ _ _ i) as [-> _].
        split; [intros [ne|le]; [contradiction | lia]|].
        intros k'. now rewrite !search_lookup, lub.
      * rewrite insert_bad_capacity in i by assumption. injection i as _ <-.
        split; [reflexivity|]. intros k'. now rewrite !search_lookup.
    + rewrite insert_no_growth in i by exact nf.
      destruct (place_Raise _ _ _ _ _ _ i) as [-> _].
      split; [reflexivity|]. intros k'. now rewrite !search_lookup.
Qed.

(** X15. An [insert] that returns in a table that is not full puts the
    node at the head of the chain of its bucket when the bucket exists,
    and otherwise adds a bucket of that one node after all the others, so
    that the buckets iterate in the order of their first insertion. *)
Theorem insert_position k v s (n : Node V) s' :
  size s <> capacity s ->
  insert false k v s = (Ok n, s') ->
  (forall c, dict_getitem (cache s) (hash_func k) = Some c ->
             dict_getitem (cache s') (hash_func k) = Some (n :: c)
             /\ digests s' = digests s)
  /\ (dict_getitem (cache s) (hash_func k) = None ->
      iterate false s' = (Ok (cache s ++ [(hash_func k, [n])]), s')).
Proof.
  intros nf i. unfold insert, depth in i. rewrite insert_no_growth in i by exact nf.
  unfold place in i.
  destruct (dict_getitem (cache s) (hash_func k)) as [[|m next]|] eqn:g.
  - discriminate.
  - destruct (has_key k (m :: next)); [discriminate|]. injection i as <- <-.
    split; [|discriminate]. intros c [= <-]. split.
    + cbn [cache set_cache]. apply getitem_setitem_same.
    + apply (setitem_present_digests _ s _ _ _ g).
  - injection i as <- <-. split; [discriminate|]. intros _.
    unfold iterate. cbn [with_lock cache set_cache].
    now rewrite setitem_absent.
Qed.

End Guarantees.

(** ** The guarantees on the test scenarios *)

Lemma update_search_round_trip_witness :
  update false "a" 7 table_ab = (Ok (mkNode "a" 7), exec (OpUpdate "a" 7) table_ab)
  /\ search false "a" (exec (OpUpdate "a" 7) table_ab)
     = (Ok (Some (mkNode "a" 7)), exec (OpUpdate "a" 7) table_ab).
Proof.
  assert (u : update false "a" 7 table_ab
              = (Ok (mkNode "a" 7), exec (OpUpdate "a" 7) table_ab))
    by (vm_compute; reflexivity).
  split; [exact u|].
  exact (proj2 (update_search_round_trip Z "a" 7 table_ab _ _ u)).
Defined.

Lemma delete_then_absent_witness :
  reachable table_x
  /\ delete false "x" table_x = (Ok tt, table_x_deleted)
  /\ search false "x" table_x_deleted = (Ok None, table_x_deleted)
  /\ contains (hash_func "x") table_x_deleted = true
  /\ delete false "x" table_x_deleted = (Raise (KeyNotFoundError "x"), table_x_deleted)
  /\ update false "x" 3 table_x_deleted = (Raise (KeyNotFoundError "x"), table_x_deleted).
Proof.
  assert (r : reachable table_x) by (apply reachable_exec, reachable_init).
  assert (d : delete false "x" table_x = (Ok tt, table_x_deleted))
    by (vm_compute; reflexivity).
  split; [exact r|]. split; [exact d|].
  exact (delete_then_absent Z "x" 3 table_x table_x_deleted r d).
Defined.

Lemma insert_outcome_witness :
  0 < 10
  /\ reachable_from 10 table_a
  /\ fst (insert false "a" 5 table_a) = Raise (DuplicateKeyError "a")
  /\ exists s',
       insert false "b" 2 table_a = (Ok (mkNode "b" 2), s')
       /\ search false "b" s' = (Ok (Some (mkNode "b" 2)), s').
Proof.
  assert (r : reachable_from 10 table_a) by (apply reach_step, reach_init).
  split; [reflexivity|]. split; [exact r|]. split.
  - apply (proj1 (insert_outcome Z 10 "a" 5 table_a eq_refl r) (mkNode "a" 1)).
    vm_compute. reflexivity.
  - apply (proj2 (insert_outcome Z 10 "b" 2 table_a eq_refl r)).
    + vm_compute. reflexivity.
    + right. vm_compute. discriminate.
Defined.

Lemma capacity_stays_positive_witness :
  0 < 2
  /\ reachable_from 2 (exec (OpInsert "c" 3) table_full_2)
  /\ 0 < capacity (exec (OpInsert "c" 3) table_full_2)
  /\ size (exec (OpInsert "c" 3) table_full_2)
     <= capacity (exec (OpInsert "c" 3) table_full_2).
Proof.
  assert (r : reachable_from 2 (exec (OpInsert "c" 3) table_full_2))
    by (do 3 apply reach_step; apply reach_init).
  split; [reflexivity|]. split; [exact r|].
  exact (capacity_stays_positive Z 2 _ eq_refl r).
Defined.

Lemma reachable_well_formed_witness :
  reachable table_ab
  /\ NoDup (digests table_ab)
  /\ NoDup (List.map key (all_nodes table_ab))
  /\ lock_held table_ab = false.
Proof.
  assert (r : reachable table_ab) by (do 2 apply reachable_exec; apply reachable_init).
  destruct (reachable_well_formed Z table_ab r) as (nd & _ & nk & _ & l).
  split; [exact r|]. split; [exact nd|]. split; [exact nk | exact l].
Defined.

Lemma insert_frame_witness :
  reachable table_full_2
  /\ insert false "c" 3 table_full_2
     = (Ok (mkNode "c" 3), exec (OpInsert "c" 3) table_full_2)
  /\ search false "a" (exec (OpInsert "c" 3) table_full_2)
     = (fst (search false "a" table_full_2), exec (OpInsert "c" 3) table_full_2)
  /\ capacity table_full_2 <= capacity (exec (OpInsert "c" 3) table_full_2).
Proof.
  assert (r : reachable table_full_2)
    by (do 2 apply reachable_exec; apply reachable_init).
  assert (i : insert false "c" 3 table_full_2
              = (Ok (mkNode "c" 3), exec (OpInsert "c" 3) table_full_2))
    by (vm_compute; reflexivity).
  destruct (insert_frame Z "c" 3 table_full_2 _ _ r i) as (_ & _ & fr & cap).
  split; [exact r|]. split; [exact i|]. split; [|exact cap].
  apply fr. discriminate.
Defined.

Lemma delete_frame_witness :
  delete false "a" table_ab = (Ok tt, exec (OpDelete "a") table_ab)
  /\ size (exec (OpDelete "a") table_ab) = size table_ab
  /\ search false "b" (exec (OpDelete "a") table_ab)
     = (fst (search false "b" table_ab), exec (OpDelete "a") table_ab).
Proof.
  assert (d : delete false "a" table_ab = (Ok tt, exec (OpDelete "a") table_ab))
    by (vm_compute; reflexivity).
  destruct (delete_frame Z "a" table_ab _ d) as (_ & sz & _ & fr).
  split; [exact d|]. split; [exact sz|]. apply fr. discriminate.
Defined.

Lemma resize_prunes_emptied_buckets_witness :
  reachable (exec (OpInsert "a" 1) table_x_deleted)
  /\ 0 < 5
  /\ size (exec (OpInsert "a" 1) table_x_deleted) = 2
  /\ populated (exec (OpInsert "a" 1) table_x_deleted) = 1
  /\ exists s',
       resize false 5 (exec (OpInsert "a" 1) table_x_deleted) = (Ok tt, s')
       /\ dense s'
       /\ size s' = populated (exec (OpInsert "a" 1) table_x_deleted).
Proof.
  assert (r : reachable (exec (OpInsert "a" 1) table_x_deleted))
    by (do 3 apply reachable_exec; apply reachable_init).
  split; [exact r|]. split; [reflexivity|].
  split; [vm_compute; reflexivity|]. split; [vm_compute; reflexivity|].
  exact (resize_prunes_emptied_buckets Z 5 _ r eq_refl).
Defined.

Lemma insert_recursion_depth_witness :
  (3 <= 5)%nat
  /\ insert_ false 5 "c" 3 table_full_2 = insert false "c" 3 table_full_2
  /\ fst (insert false "c" 3 table_full_2) <> OutOfFuel.
Proof.
  assert (le : (3 <= 5)%nat) by lia.
  destruct (insert_recursion_depth Z false 5 "c" 3 table_full_2 le) as (e & ne & _).
  split; [exact le|]. split; [exact e | exact ne].
Defined.

Lemma insert_deadlocks_when_growing_witness :
  lock_held table_full_1 = false
  /\ size table_full_1 = capacity table_full_1
  /\ 0 < capacity table_full_1
  /\ all_nodes table_full_1 <> []
  /\ fst (insert true "b" 2 table_full_1) = Deadlock.
Proof.
  assert (l : lock_held table_full_1 = false) by (vm_compute; reflexivity).
  assert (f : size table_full_1 = capacity table_full_1) by (vm_compute; reflexivity).
  assert (p : 0 < capacity table_full_1) by (vm_compute; reflexivity).
  assert (ne : all_nodes table_full_1 <> []) by (vm_compute; discriminate).
  split; [exact l|]. split; [exact f|]. split; [exact p|]. split; [exact ne|].
  exact (insert_deadlocks_when_growing Z "b" 2 table_full_1 l f p ne).
Defined.

Lemma lock_transparent_witness :
  lock_held table_a = false
  /\ size table_a <> capacity table_a
  /\ update true "a" 7 table_a = update false "a" 7 table_a
  /\ search true "a" table_a = search false "a" table_a
  /\ insert true "b" 2 table_a = insert false "b" 2 table_a.
Proof.
  assert (l : lock_held table_a = false) by (vm_compute; reflexivity).
  assert (nf : size table_a <> capacity table_a) by (vm_compute; discriminate).
  destruct (lock_transparent Z "a" 7 table_a l) as (u & _ & sr & _ & _).
  destruct (lock_transparent Z "b" 2 table_a l) as (_ & _ & _ & _ & i).
  split; [exact l|]. split; [exact nf|]. split; [exact u|]. split; [exact sr|].
  exact (i nf).
Defined.

Lemma contains_false_on_raw_key_witness :
  reachable table_a
  /\ String.length "a" <> 64%nat
  /\ contains "a" table_a = false.
Proof.
  assert (r : reachable table_a) by (apply reachable_exec, reachable_init).
  assert (ne : String.length "a" <> 64%nat) by (cbn; lia).
  split; [exact r|]. split; [exact ne|].
  exact (contains_false_on_raw_key Z "a" table_a r ne).
Defined.

Lemma failed_call_keeps_table_witness :
  reachable table_a
  /\ insert false "a" 2 table_a = (Raise (DuplicateKeyError "a"), table_a)
  /\ snd (insert false "a" 2 table_a) = table_a.
Proof.
  assert (r : reachable table_a) by (apply reachable_exec, reachable_init).
  assert (i : insert false "a" 2 table_a = (Raise (DuplicateKeyError "a"), table_a))
    by (vm_compute; reflexivity).
  destruct (failed_call_keeps_table Z table_a r) as (_ & _ & _ & fi).
  destruct (fi "a" 2 _ _ i) as [same _].
  split; [exact r|]. split; [exact i|].
  rewrite i. reflexivity.
Defined.

Lemma insert_position_witness :
  size table_a <> capacity table_a
  /\ insert false "b" 2 table_a = (Ok (mkNode "b" 2), table_ab)
  /\ dict_getitem (cache table_a) (hash_func "b") = None
  /\ iterate false table_ab
     = (Ok (cache table_a ++ [(hash_func "b", [mkNode "b" 2])]), table_ab).
Proof.
  assert (nf : size table_a <> capacity table_a) by (vm_compute; discriminate).
  assert (i : insert false "b" 2 table_a = (Ok (mkNode "b" 2), table_ab))
    by (vm_compute; reflexivity).
  assert (g : dict_getitem (cache table_a) (hash_func "b") = None)
    by (vm_compute; reflexivity).
  split; [exact nf|]. split; [exact i|]. split; [exact g|].
  exact (proj2 (insert_position Z "b" 2 table_a _ _ nf i) g).
Defined.
